(** * resin-device-operations: the operation pipeline, embedded and verified

    The development follows the four source files:
    - [Utils]      : [src/build/utils.js]
    - [Commands]   : [src/build/commands.js]
    - [Action]     : [src/lib/action.coffee]
    - [Operations] : [src/build/operations.js]
    with [Js], [Lodash] and [Number] for what they take from the language
    and its libraries.

    JavaScript objects are association lists in the order their
    properties are enumerated, numbers are binary64 values, and the
    operations handed to [execute] are references into a store, as are the
    descriptor objects the operations refer to: the command handlers
    assign to both in place, and whoever holds the same object sees the
    assignment.  What a run does is recorded as a log of emitted events,
    listener calls, handler invocations and calls to the collaborating
    libraries, with a mark for what a handle that has settled has
    re-emitted later.  [Spec] then states the properties and the last part
    proves them. *)

From Stdlib Require Import List String Ascii ZArith Bool Lia DecimalString.
From Stdlib Require Import SpecFloat QArith Qpower Lqa.
Import ListNotations.

Close Scope Q_scope.
Local Open Scope string_scope.
Local Open Scope list_scope.

(** ** JavaScript values and plain objects *)

Module Js.

(** Option values are scalars: strings or numbers.  Numbers are the
    integers; [NaN] and fractions do not occur as option values. *)
Inductive value :=
| VStr (s : string)
| VNum (n : Z).

(** [a === b] *)
Definition strict_eq (a b : value) : bool :=
  match a, b with
  | VStr s, VStr t => String.eqb s t
  | VNum n, VNum m => Z.eqb n m
  | _, _ => false
  end.

(** A plain object: its own enumerable properties, in the order [_.keys]
    enumerates them (for names that are no array indices, the order they
    were added in). *)
Definition object := list (string * value).

Fixpoint get (o : object) (k : string) : option value :=
  match o with
  | [] => None
  | (k', v) :: o' => if String.eqb k' k then Some v else get o' k
  end.

(** [o[k] = v]: replaces in place, or appends a new property. *)
Fixpoint set (o : object) (k : string) (v : value) : object :=
  match o with
  | [] => [(k, v)]
  | (k', v') :: o' =>
      if String.eqb k' k then (k, v) :: o' else (k', v') :: set o' k v
  end.

Definition keys (o : object) : list string := map fst o.

(** No property name occurs twice: every object the language can build. *)
Definition wf (o : object) : Prop := NoDup (keys o).

(** What the runtime raises or a collaborator reports. *)
Inductive error :=
| JsError (message : string)     (* [new Error(message)] *)
| TypeError                      (* raised by the runtime or by lodash *)
| Failure (reason : string).     (* a collaborator's own failure *)

(** [String(n)] for an integer. *)
Definition number_to_string (n : Z) : string :=
  NilZero.string_of_int (Z.to_int n).

End Js.

(** ** The lodash and underscore.string functions the code calls *)

Module Lodash.
Import Js.

Definition mem (x : string) (l : list string) : bool :=
  existsb (String.eqb x) l.

(** [_.isEmpty] on an object that may be [undefined]. *)
Definition isEmpty (o : option object) : bool :=
  match o with
  | None | Some [] => true
  | Some (_ :: _) => false
  end.

(** [_.keys] gives [[]] for [undefined]. *)
Definition keys (o : option object) : list string :=
  match o with
  | None => []
  | Some o => Js.keys o
  end.

Definition flatten (l : list (list string)) : list string := List.concat l.

(** [_.difference(array, values)]: order and repetitions of [array] kept. *)
Definition difference (array values : list string) : list string :=
  filter (fun x => negb (mem x values)) array.

(** [_.uniq]: scans left to right, pushing what the result lacks. *)
Fixpoint baseUniq (result array : list string) : list string :=
  match array with
  | [] => result
  | x :: rest =>
      if mem x result then baseUniq result rest
      else baseUniq (result ++ [x]) rest
  end.

Definition uniq (array : list string) : list string := baseUniq [] array.

(** The predicate [_.matches(source)] on an object. *)
Definition isMatch (o : object) (source : object) : bool :=
  forallb (fun kv =>
             match get o (fst kv) with
             | Some v => strict_eq v (snd kv)
             | None => false
             end) source.

(** [_.findWhere(collection, source)]; a [null] element only matches a
    source without properties. *)
Definition findWhere (collection : list (option object))
    (source : option object) : option (option object) :=
  find (fun el =>
          match el, source with
          | Some o, Some s => isMatch o s
          | Some o, None => true
          | None, _ => isEmpty source
          end) collection.

(** [_.str.toSentence(array)] with its default separators. *)
Fixpoint join (sep : string) (l : list string) : string :=
  match l with
  | [] => ""
  | [x] => x
  | x :: rest => x ++ sep ++ join sep rest
  end.

Definition toSentence (array : list string) : string :=
  match rev array with
  | [] => ""
  | [lastMember] => lastMember
  | lastMember :: front => join ", " (rev front) ++ " and " ++ lastMember
  end.

End Lodash.

(** ** src/build/utils.js *)

Module Utils.
Import Js.

(** What a handle (a stream, a child process, a writer) emits, as far as
    the pipeline listens. *)
Inductive signal :=
| SigStdout (data : string)        (* ['data'] on [handle.stdout] *)
| SigStderr (data : string)        (* ['data'] on [handle.stderr] *)
| SigProgress (state : string)     (* ['progress'] *)
| SigError (e : error)             (* ['error'] *)
| SigEnd                           (* ['end'] *)
| SigDone                          (* ['done'] *)
| SigClose (code : option Z)       (* ['close'], maybe with an exit code *)
| SigOther (name : string).        (* any other event *)

(** The state of a promise once the handle has emitted all it will. *)
Inductive completion :=
| Pending
| Resolved
| Rejected (e : error).

(** The listener installed on ['close']. *)
Definition on_close (code : option Z) : completion :=
  match code with
  | Some c =>
      if negb (Z.eqb c 0)
      then Rejected (JsError ("Exitted with error code: " ++ number_to_string c))
      else Resolved
  | None => Resolved
  end.

(** [waitStreamToClose(stream)]: the first of ['error'], ['end'],
    ['done'] and ['close'] settles the promise. *)
Fixpoint waitStreamToClose (stream : list signal) : completion :=
  match stream with
  | [] => Pending
  | SigError e :: _ => Rejected e
  | SigEnd :: _ => Resolved
  | SigDone :: _ => Resolved
  | SigClose code :: _ => on_close code
  | _ :: rest => waitStreamToClose rest
  end.

(** [object != null] *)
Definition not_null {A : Type} (x : option A) : bool :=
  match x with
  | Some _ => true
  | None => false
  end.

(** [isObjectSubset(object, subset)] *)
Definition isObjectSubset (object subset : option Js.object) : bool :=
  if not_null object && Lodash.isEmpty subset then true
  else match Lodash.findWhere [object] subset with
       | Some found => not_null found
       | None => false
       end.

Definition or_empty (options : option Js.object) : Js.object :=
  match options with
  | Some o => o
  | None => []
  end.

Section OverOperations.
(** The operations are whatever the caller's array holds, read through
    their [when] property. *)
Context {A : Type} (when_of : A -> option Js.object).

(** [filterWhenMatches(operations, options)] *)
Definition filterWhenMatches (operations : list A)
    (options : option Js.object) : list A :=
  let options := or_empty options in
  filter (fun operation =>
            isObjectSubset (Some options) (when_of operation))
         operations.

(** [getMissingOptions(operations, options)] *)
Definition getMissingOptions (operations : list A)
    (options : option Js.object) : list string :=
  let options := or_empty options in
  let usedOptions :=
    Lodash.flatten (map Lodash.keys (map when_of operations)) in
  Lodash.uniq (Lodash.difference usedOptions (Js.keys options)).
End OverOperations.

(** [getOperatingSystem()], from what [os.platform()] answers. *)
Definition getOperatingSystem (platform : string) : string :=
  if String.eqb platform "darwin" then "osx" else platform.

End Utils.

(** ** JavaScript numbers

    Numbers are IEEE 754 binary64 values; the arithmetic is the standard
    library's executable specification of it ([SpecFloat], the one
    primitive floats are specified against). *)

Module Number.

Definition prec : Z := 53.
Definition emax : Z := 1024.

(** The number an array index or length is. *)
Definition of_Z (n : Z) : spec_float := binary_normalize prec emax n 0 false.

Definition div (x y : spec_float) : spec_float := SFdiv prec emax x y.
Definition mul (x y : spec_float) : spec_float := SFmul prec emax x y.

(** A number as [parseFloat(x.toFixed(1))] gives it: the decimal with
    one fractional digit that [toFixed] prints, counted in tenths
    ([parseFloat] reads it back as the nearest binary64 number); or an
    infinity or [NaN], which [toFixed] prints by name. *)
Inductive decimal1 :=
| Tenths (n : Z)
| NotFinite.

(** [x.toFixed(1)]: the integer [n] with [n / 10 - x] closest to zero,
    the larger one if there are two, for [0 <= x]; [x < 0] is printed as
    ["-"] and [(-x).toFixed(1)]. *)
Definition toFixed1_pos (m : positive) (e : Z) : Z :=
  if Z.leb 0 e then 10 * Z.pos m * 2 ^ e
  else (20 * Z.pos m + 2 ^ (- e)) / (2 * 2 ^ (- e)).

Definition toFixed1 (x : spec_float) : decimal1 :=
  match x with
  | S754_zero _ => Tenths 0
  | S754_finite s m e =>
      Tenths (if s then - toFixed1_pos m e else toFixed1_pos m e)
  | _ => NotFinite
  end.

End Number.

(** ** src/build/commands.js *)

Module Descriptor.
(** A file or partition descriptor: its [image] property, and the rest. *)
Record t := { image : option string; fields : Js.object }.

(** [if (d.image == null) d.image = image] *)
Definition default_image (img : string) (d : t) : t :=
  match image d with
  | Some _ => d
  | None => {| image := Some img; fields := fields d |}
  end.
End Descriptor.

Module Commands.
Import Js Utils.

(** Descriptors are objects: an operation holds a reference to each of
    its descriptors, and two operations, or two properties of one
    operation, may hold the same one.  A descriptor is taken to be no
    operation record itself. *)
Definition dref := nat.

(** The descriptor objects that can be reached, by reference. *)
Definition heap := dref -> Descriptor.t.

(** [if (d.image == null) d.image = image], on the object itself. *)
Definition default_image_at (img : string) (d : dref) (h : heap) : heap :=
  fun d' => if Nat.eqb d d' then Descriptor.default_image img (h d) else h d'.

(** An operation record, with the properties the handlers read. *)
Record operation := {
  command : string;
  when : option Js.object;
  from : option dref;
  to : option dref;
  file : option dref;
  find : option string;
  replace : option string;
  script : option string;
  arguments : option (list string);
  image : option string
}.

(** What invoking a handler comes to: a promise fulfilled with a handle,
    of which the signals emitted after the pipeline attached its
    listeners are given, or a rejection (a synchronous throw inside the
    pipeline's iterator rejects too). *)
Inductive outcome :=
| Fulfilled (handle : list signal)
| Rejects (e : error).

(** Calls to the collaborating libraries; a descriptor is given as it is
    at the time of the call. *)
Inductive io :=
| ImagefsCopy (input output : Descriptor.t)
| ImagefsReplace (f : Descriptor.t) (search replacement : option string)
| Chmod (path : string) (mode : Z)
| Spawn (path : string) (args : list string)
| Stat (path : string)
| CreateReadStream (path : string)
| ImageWrite (drive : value) (path : string) (length : Z).

(** The collaborators ([resin-image-fs], [resin-image-write], [fs],
    [child_process], [path], [os] and the JavaScript runtime), as oracles.
    An answer may depend on when it is asked: the index of the step
    making the call. *)
Record env := {
  platform : string;                               (* [os.platform()] *)
  path_join : string -> string -> string;          (* [path.join] *)
  object_prototype : string -> option bool;
    (* a property every object inherits; [Some true] if it is a function *)
  imagefs_copy : nat -> Descriptor.t -> Descriptor.t -> outcome;
  imagefs_replace :
    nat -> Descriptor.t -> option string -> option string -> outcome;
  fs_chmod : nat -> string -> Z -> option error;   (* [None]: done *)
  child_process_spawn : nat -> string -> list string -> outcome;
  fs_stat : nat -> string -> error + Z;            (* the file's size *)
  fs_createReadStream : nat -> string -> option Z; (* its own [length] *)
  imageWrite_write : nat -> value -> string -> Z -> outcome
}.

Definition with_script (o : operation) (s : string) : operation :=
  {| command := command o; when := when o; from := from o; to := to o;
     file := file o; find := find o; replace := replace o;
     script := Some s; arguments := arguments o; image := image o |}.

Definition with_arguments (o : operation) (a : list string) : operation :=
  {| command := command o; when := when o; from := from o; to := to o;
     file := file o; find := find o; replace := replace o;
     script := script o; arguments := Some a; image := image o |}.

Definition with_image (o : operation) (i : string) : operation :=
  {| command := command o; when := when o; from := from o; to := to o;
     file := file o; find := find o; replace := replace o;
     script := script o; arguments := arguments o; image := Some i |}.

(** A handler's effect: what it assigns to, as it leaves it, the calls
    it made, and what its promise comes to.  [run-script] and [burn]
    assign to properties of the operation record, [copy] and [replace] to
    the [image] of descriptor objects. *)
Definition effect : Type := operation * list io * outcome.
Definition effect_on_descriptors : Type := heap * list io * outcome.

Section Handlers.
Variable E : env.
(** The step at which the handler is invoked. *)
Variable index : nat.

Definition copy (img : string) (o : operation) (h : heap)
    : effect_on_descriptors :=
  match from o with
  | None => (h, [], Rejects TypeError)
  | Some base =>
      let h := default_image_at img base h in
      match to o with
      | None => (h, [], Rejects TypeError)
      | Some base1 =>
          let h := default_image_at img base1 h in
          (h, [ImagefsCopy (h base) (h base1)],
           imagefs_copy E index (h base) (h base1))
      end
  end.

Definition replace_ (img : string) (o : operation) (h : heap)
    : effect_on_descriptors :=
  match file o with
  | None => (h, [], Rejects TypeError)
  | Some base =>
      let h := default_image_at img base h in
      (h, [ImagefsReplace (h base) (find o) (replace o)],
       imagefs_replace E index (h base) (find o) (replace o))
  end.

Definition run_script (img : string) (o : operation) : effect :=
  match script o with
  | None => (o, [], Rejects TypeError)
  | Some s =>
      let o := with_script o (path_join E img s) in
      let o := match arguments o with
               | Some _ => o
               | None => with_arguments o []
               end in
      let args := match arguments o with Some a => a | None => [] end in
      match fs_chmod E index (path_join E img s) 755 with
      | Some e => (o, [Chmod (path_join E img s) 755], Rejects e)
      | None =>
          (o, [Chmod (path_join E img s) 755; Spawn (path_join E img s) args],
           child_process_spawn E index (path_join E img s) args)
      end
  end.

Definition burn (img : string) (o : operation)
    (options : option Js.object) : effect :=
  let o := match image o with
           | Some _ => o
           | None => with_image o img
           end in
  let path := match image o with Some i => i | None => img end in
  match get (or_empty options) "drive" with
  | None => (o, [], Rejects (JsError "Missing drive option"))
  | Some drive =>
      match fs_stat E index path with
      | inl e => (o, [Stat path], Rejects e)
      | inr size =>
          let length :=
            match fs_createReadStream E index path with
            | Some l => l
            | None => size
            end in
          (o, [Stat path; CreateReadStream path; ImageWrite drive path length],
           imageWrite_write E index drive path length)
      end
  end.
End Handlers.

End Commands.

(** ** src/lib/action.coffee *)

Module Action.
Import Js Utils Commands.

(** [getOperationProgress(index, operations)], from the length of
    [operations]: [progress = (index + 1) / length * 100] and
    [parseFloat(progress.toFixed(1))]. *)
Definition getOperationProgress (index length : nat) : Number.decimal1 :=
  let progress :=
    Number.mul (Number.div (Number.of_Z (Z.of_nat index + 1))
                           (Number.of_Z (Z.of_nat length)))
               (Number.of_Z 100) in
  Number.toFixed1 progress.

(** The handlers of the registry. *)
Inductive handler := Copy | Replace | RunScript | Burn.

(** What [commands[name]] finds: one of the registry's own handlers, or
    a property the registry object inherits. *)
Inductive member :=
| Own (h : handler)
| Inherited (callable : bool).

Definition commands (E : env) (name : string) : option member :=
  if String.eqb name "copy" then Some (Own Copy)
  else if String.eqb name "replace" then Some (Own Replace)
  else if String.eqb name "run-script" then Some (Own RunScript)
  else if String.eqb name "burn" then Some (Own Burn)
  else option_map Inherited (object_prototype E name).

(** [run(image, operation, options)]: the bound handler, not yet
    invoked; [_.partial] refuses what is not a function. *)
Definition run (E : env) (o : operation) : error + member :=
  match commands E (command o) with
  | None => inl (JsError ("Unknown command: " ++ command o))
  | Some (Inherited false) => inl TypeError
  | Some action => inr action
  end.

(** Invoking the bound handler at a step, on an operation record and the
    descriptor objects as they are then: the record and the descriptors
    as the handler leaves them, its calls and what its promise comes to.
    An inherited function is no command handler: whatever it returns is
    not a promise. *)
Definition invoke (E : env) (index : nat) (img : string)
    (options : Js.object) (action : member) (o : operation) (h : heap)
    : (operation * heap) * list io * outcome :=
  match action with
  | Own Copy =>
      let '(h, calls, out) := copy E index img o h in ((o, h), calls, out)
  | Own Replace =>
      let '(h, calls, out) := replace_ E index img o h in ((o, h), calls, out)
  | Own RunScript =>
      let '(o, calls, out) := run_script E index img o in ((o, h), calls, out)
  | Own Burn =>
      let '(o, calls, out) := burn E index img o (Some options) in
      ((o, h), calls, out)
  | Inherited _ => ((o, h), [], Rejects TypeError)
  end.

End Action.

(** ** src/build/operations.js *)

Module Operations.
Import Js Utils Commands Action.

(** The caller's array holds references to operation records, and the
    records hold references to descriptor objects.  The store has what
    each reference stands for; [st r] is the operation record of [r]. *)
Definition ref := nat.
Record store := {
  record_of :> ref -> operation;
  descriptor_of : heap
}.

(** The store once a handler has run on the operation of [r]. *)
Definition update (st : store) (r : ref) (after : operation * heap) : store :=
  {| record_of := fun r' => if Nat.eqb r r' then fst after else st r';
     descriptor_of := snd after |}.

(** The events of the emitter [execute] returns. *)
Inductive event :=
| EvState (operation : ref) (percentage : Number.decimal1)
| EvStdout (data : string)
| EvStderr (data : string)
| EvBurn (state : string)
| EvError (e : error)
| EvEnd.

Definition name (ev : event) : string :=
  match ev with
  | EvState _ _ => "state"
  | EvStdout _ => "stdout"
  | EvStderr _ => "stderr"
  | EvBurn _ => "burn"
  | EvError _ => "error"
  | EvEnd => "end"
  end.

(** Listeners are callbacks the caller registered, known by a number;
    all the model keeps of them is when they are called: they neither
    throw nor act on the emitter. *)
Definition listeners := list (string * nat).

(** What happens during a run, in order.  A handle may go on emitting
    once it has settled, and the listeners [execute] attached to it are
    never removed: a [Late] entry stands where a handle has settled, for an
    event the emitter re-emits at some time from then on, be it during a
    later step or after the run has ended. *)
Inductive entry :=
| Emit (ev : event)                 (* [emitter.emit] *)
| Call (callback : nat) (ev : event)    (* a listener called with it *)
| Invoke (operation : ref)          (* the bound handler is invoked *)
| IO (call : io)                    (* a handler calls a collaborator *)
| Late (ev : event).                (* re-emitted later, from a settled handle *)

(** [emitter.emit(ev)]: the listeners of the event are called in the
    order they were registered. *)
Definition emit (ls : listeners) (ev : event) : list entry :=
  Emit ev ::
  map (fun l => Call (snd l) ev)
      (filter (fun l => String.eqb (fst l) (name ev)) ls).

(** What the listeners [execute] attaches to a handle re-emit of the
    signals a handle emits once it has settled. *)
Fixpoint straggle (handle : list signal) : list entry :=
  match handle with
  | [] => []
  | SigStdout data :: rest => Late (EvStdout data) :: straggle rest
  | SigStderr data :: rest => Late (EvStderr data) :: straggle rest
  | SigProgress state :: rest => Late (EvBurn state) :: straggle rest
  | _ :: rest => straggle rest
  end.

(** The listeners [execute] attaches to a handle: output and progress
    are republished as they arrive, while the step waits for the handle
    to settle and afterwards. *)
Fixpoint republish (ls : listeners) (handle : list signal) : list entry :=
  match handle with
  | [] => []
  | SigStdout data :: rest => emit ls (EvStdout data) ++ republish ls rest
  | SigStderr data :: rest => emit ls (EvStderr data) ++ republish ls rest
  | SigProgress state :: rest => emit ls (EvBurn state) ++ republish ls rest
  | SigOther _ :: rest => republish ls rest
  | (SigError _ | SigEnd | SigDone | SigClose _) :: rest => straggle rest
  end.

Section Run.
Variable E : env.
Variable img : string.
Variable options : Js.object.
Variable ls : listeners.
(** The filtered operations' count. *)
Variable length : nat.

(** The iterator of [Promise.each], at one bound handler. *)
Definition step (index : nat) (promise : member * ref) (st : store)
    : list entry * store * completion :=
  let '(action, r) := promise in
  let state := EvState r (getOperationProgress index length) in
  let '(after, calls, out) :=
    invoke E index img options action (st r) (descriptor_of st) in
  let st := update st r after in
  let before := emit ls state ++ Invoke r :: map IO calls in
  match out with
  | Rejects e => (before, st, Rejected e)
  | Fulfilled handle =>
      (before ++ republish ls handle, st, waitStreamToClose handle)
  end.

(** [Promise.each(promises, iterator)]: one at a time, in order, each
    awaited before the next; the first rejection ends it. *)
Fixpoint each (index : nat) (promises : list (member * ref)) (st : store)
    : list entry * store * completion :=
  match promises with
  | [] => ([], st, Resolved)
  | promise :: rest =>
      let '(log, st, c) := step index promise st in
      match c with
      | Resolved =>
          let '(log', st, c) := each (S index) rest st in
          (log ++ log', st, c)
      | _ => (log, st, c)
      end
  end.
End Run.

(** [_.map(operations, operation => action.run(...))]: the first throw
    ends the mapping. *)
Fixpoint run_all (E : env) (st : store) (operations : list ref)
    : error + list (member * ref) :=
  match operations with
  | [] => inr []
  | r :: rest =>
      match run E (st r) with
      | inl e => inl e
      | inr action =>
          match run_all E st rest with
          | inl e => inl e
          | inr promises => inr ((action, r) :: promises)
          end
      end
  end.

(** The emitter, as far as subscribing to it goes. *)
Record emitter := {
  subscribed : listeners;
  ended : bool;
  on_patched : bool       (* [emitter.on] has been replaced *)
}.

(** How a run stands once nothing more will happen. *)
Inductive status :=
| Succeeded
| Failed (e : error)
| Hung.                   (* a step's completion never settles *)

Record result := {
  log : list entry;
  final : status;
  operations_after : store;
  options_after : Js.object;
  the_emitter : emitter
}.

(** [options.os == null] fills in the operating system. *)
Definition effective_options (E : env) (options : option Js.object)
    : Js.object :=
  let options := or_empty options in
  match get options "os" with
  | Some _ => options
  | None => set options "os" (VStr (getOperatingSystem (platform E)))
  end.

(** The promise chain [execute] starts before it returns: the body given
    to [Promise.try], then the [then] and the [catch] handlers.  [options]
    are the completed options, [ls] the listeners the caller attaches to
    the returned emitter before the chain's first tick. *)
Definition chain (E : env) (img : string) (operations : list ref)
    (options : Js.object) (st : store) (ls : listeners) : result :=
  let operations :=
    filterWhenMatches (fun r => when (st r)) operations (Some options) in
  match run_all E st operations with
  | inl error =>
      {| log := emit ls (EvError error);
         final := Failed error;
         operations_after := st;
         options_after := options;
         the_emitter := {| subscribed := ls; ended := false;
                           on_patched := false |} |}
  | inr promises =>
      let '(steps, st, c) :=
        each E img options ls (List.length operations) 0 promises st in
      match c with
      | Resolved =>
          {| log := steps ++ emit ls EvEnd;
             final := Succeeded;
             operations_after := st;
             options_after := options;
             the_emitter := {| subscribed := ls; ended := true;
                               on_patched := true |} |}
      | Rejected error =>
          {| log := steps ++ emit ls (EvError error);
             final := Failed error;
             operations_after := st;
             options_after := options;
             the_emitter := {| subscribed := ls; ended := false;
                               on_patched := true |} |}
      | Pending =>
          {| log := steps;
             final := Hung;
             operations_after := st;
             options_after := options;
             the_emitter := {| subscribed := ls; ended := false;
                               on_patched := true |} |}
      end
  end.

(** [execute(image, operations, options)].  [inl]: thrown to the caller,
    no emitter returned. *)
Definition execute (E : env) (img : string) (operations : list ref)
    (options : option Js.object) (st : store) (ls : listeners)
    : error + result :=
  let options := effective_options E options in
  let missingOptions :=
    getMissingOptions (fun r => when (st r)) operations (Some options) in
  match missingOptions with
  | _ :: _ =>
      inl (JsError ("Missing options: " ++ Lodash.toSentence missingOptions))
  | [] => inr (chain E img operations options st ls)
  end.

(** [emitter.on(event, callback)] on the returned emitter: the emitter
    afterwards, and the calls made while subscribing. *)
Definition on (em : emitter) (event : string) (callback : nat)
    : emitter * list entry :=
  if on_patched em && (String.eqb event "end" && ended em)
  then (em, [Call callback EvEnd])
  else ({| subscribed := subscribed em ++ [(event, callback)];
           ended := ended em;
           on_patched := on_patched em |}, []).

End Operations.

(** * What the specification says, in the terms of the model *)

Module Spec.
Import Js Utils Commands Action Operations.

(** Signals [waitStreamToClose] has no listener for. *)
Definition unheard (s : signal) : bool :=
  match s with
  | SigStdout _ | SigStderr _ | SigProgress _ | SigOther _ => true
  | _ => false
  end.

(** "Every key present in the requirement exists in the candidate with an
    equal value", equal meaning the same type and the same content. *)
Definition is_subset (requirement : option Js.object) (candidate : Js.object)
    : Prop :=
  forall k v, In (k, v) (or_empty requirement) -> get candidate k = Some v.

(** The distinct members of a list in first-seen order: the head stays,
    its later occurrences go. *)
Fixpoint first_seen (l : list string) : list string :=
  match l with
  | [] => []
  | x :: rest => x :: filter (fun y => negb (String.eqb y x)) (first_seen rest)
  end.

(** "The union of all keys appearing across every operation's [when],
    minus the keys present in options", distinct and in first-seen
    order. *)
Definition missingOptions (whens : list (option Js.object))
    (options : Js.object) : list string :=
  filter (fun k => negb (Lodash.mem k (Js.keys options)))
         (first_seen (List.concat (map Lodash.keys whens))).

(** A message lists a name when the name is part of it. *)
Definition occurs_in (name message : string) : Prop :=
  exists before after : string, message = (before ++ name ++ after)%string.

(** The events a log emits, in order. *)
Definition emitted (l : list entry) : list event :=
  flat_map (fun e => match e with Emit ev => [ev] | _ => [] end) l.

Definition is_state (ev : event) : bool :=
  match ev with EvState _ _ => true | _ => false end.

Definition is_end (ev : event) : bool :=
  match ev with EvEnd => true | _ => false end.

Definition is_error (ev : event) : bool :=
  match ev with EvError _ => true | _ => false end.

(** While a step runs, only output is republished. *)
Definition is_output (ev : event) : bool :=
  match ev with
  | EvStdout _ | EvStderr _ | EvBurn _ => true
  | _ => false
  end.

(** The entries that tell a step's start: its [state] event and the
    invocation of its handler. *)
Definition milestone (e : entry) : bool :=
  match e with
  | Emit (EvState _ _) | Invoke _ => true
  | _ => false
  end.

(** One [state] event per operation, each followed by the invocation of
    that operation, in list order; the percentages are those of
    [getOperationProgress] for the position in the list. *)
Fixpoint state_then_invoke (length index : nat) (operations : list ref)
    : list entry :=
  match operations with
  | [] => []
  | r :: rest =>
      Emit (EvState r (getOperationProgress index length))
      :: Invoke r :: state_then_invoke length (S index) rest
  end.

(** Every step completes successfully: each handler, invoked on the
    operations as the steps before it left them, comes to a handle whose
    completion resolves. *)
Fixpoint steps_complete (E : env) (img : string) (options : Js.object)
    (ls : listeners) (length index : nat) (promises : list (member * ref))
    (st : store) : Prop :=
  match promises with
  | [] => True
  | promise :: rest =>
      let '(_, st', c) := step E img options ls length index promise st in
      c = Resolved
      /\ steps_complete E img options ls length (S index) rest st'
  end.

Definition every_step_completes (E : env) (img : string)
    (operations : list ref) (options : option Js.object) (st : store)
    (ls : listeners) : Prop :=
  match run_all E st operations with
  | inl _ => False
  | inr promises =>
      steps_complete E img (effective_options E options) ls
                     (List.length operations) 0 promises st
  end.

(** The events a callback was called with. *)
Definition calls_of (callback : nat) (l : list entry) : list event :=
  flat_map (fun e =>
              match e with
              | Call c ev => if Nat.eqb c callback then [ev] else []
              | _ => []
              end) l.

(** ** Numbers as rationals *)

(** A rounding location: where [v] lies from [m] to [m + 1]. *)
Definition inbetween (m : Z) (l : location) (v : Q) : Prop :=
  match l with
  | loc_Exact => (v == inject_Z m)%Q
  | loc_Inexact Lt => (inject_Z m < v /\ v < inject_Z m + (1#2))%Q
  | loc_Inexact Eq => (v == inject_Z m + (1#2))%Q
  | loc_Inexact Gt => (inject_Z m + (1#2) < v /\ v < inject_Z m + 1)%Q
  end.

Fixpoint half_pow (n : nat) : Q :=
  match n with
  | O => 1%Q
  | S n => (half_pow n * (1#2))%Q
  end.

Definition pow2 (e : Z) : Q := Qpower 2 e.

(** The rational a finite number with mantissa [m] and exponent [e] is. *)
Definition F2Q (m : Z) (e : Z) : Q := (inject_Z m * pow2 e)%Q.

(** Half a unit in the last place of a 53-bit mantissa, relative to it. *)
Definition u : Q := (1 # 9007199254740992)%Q.

(** "[numerator / denominator] rounded to one decimal": [n] tenths are
    no further than half a tenth from it. *)
Definition nearest_tenth (n numerator denominator : Z) : Prop :=
  (Z.abs (2 * n * denominator - 20 * numerator) <= denominator)%Z.


(** The filtered operations of a run. *)
Definition filtered (E : env) (operations : list ref)
    (options : option Js.object) (st : store) : list ref :=
  filterWhenMatches (fun r => when (st r)) operations
                    (Some (effective_options E options)).

(** The unknown-command error is "reported when that step is reached":
    the operations before it execute and emit their [state] events, then
    the run emits that one [error] event and no [end] event. *)
Definition unknown_command_reported_at_its_step (E : env) (img : string)
    (operations : list ref) (options : option Js.object) (st : store)
    (ls : listeners) : Prop :=
  forall r before x after,
    execute E img operations options st ls = inr r ->
    filtered E operations options st = before ++ x :: after ->
    commands E (command (st x)) = None ->
    (forall y, In y before ->
               In (Invoke y) (log r)
               /\ exists p, In (Emit (EvState y p)) (log r))
    /\ filter is_error (emitted (log r))
       = [EvError (JsError ("Unknown command: " ++ command (st x)))]
    /\ filter is_end (emitted (log r)) = [].









(** ** A concrete image, store and environment *)

Definition blank (c : string) : operation :=
  {| command := c; when := None; from := None; to := None; file := None;
     find := None; replace := None; script := None; arguments := None;
     image := None |}.

Definition boot_partition : Descriptor.t :=
  {| Descriptor.image := None;
     Descriptor.fields := [("partition", VNum 1); ("path", VStr "/config.txt")] |}.

(** Reference 0 is a [copy], 1 a [run-script], 2 a [burn], 3 names a
    command the registry lacks, and the rest are [copy] operations that
    apply to one processor type, made from the very descriptor objects
    of operation 0.  Every descriptor is of the boot partition and names
    no image. *)
Definition example_store : store :=
  {| record_of := fun r =>
       match r with
       | 0 => {| command := "copy"; when := None;
                 from := Some 0; to := Some 1;
                 file := None; find := None; replace := None; script := None;
                 arguments := None; image := None |}
       | 1 => with_script (blank "run-script") "setup.sh"
       | 2 => blank "burn"
       | 3 => blank "foo"
       | _ => {| command := "copy";
                 when := Some [("processorType", VStr "Z7010")];
                 from := Some 0; to := Some 1;
                 file := None; find := None; replace := None; script := None;
                 arguments := None; image := None |}
       end;
     descriptor_of := fun _ => boot_partition |}.

(** Collaborators that all succeed. *)
Definition example_env : env :=
  {| platform := "darwin";
     path_join := fun a b => (a ++ "/" ++ b)%string;
     object_prototype :=
       fun n => if String.eqb n "toString" then Some true
                else if String.eqb n "__proto__" then Some false
                else None;
     imagefs_copy := fun _ _ _ => Fulfilled [SigEnd];
     imagefs_replace := fun _ _ _ _ => Fulfilled [SigEnd];
     fs_chmod := fun _ _ _ => None;
     child_process_spawn :=
       fun _ _ _ => Fulfilled [SigStdout "ready"; SigClose (Some 0%Z)];
     fs_stat := fun _ _ => inr 1024%Z;
     fs_createReadStream := fun _ _ => None;
     imageWrite_write := fun _ _ _ _ => Fulfilled [SigProgress "50"; SigDone] |}.

End Spec.

(** * More of what the code does, in the terms of the model *)

Module Behaviour.
Import Js Utils Commands Action Operations Spec.

(** The operations whose handler a log invokes, in order. *)
Definition invoked (l : list entry) : list ref :=
  flat_map (fun e => match e with Invoke r => [r] | _ => [] end) l.

(** The calls to collaborators a log makes, in order. *)
Definition io_calls (l : list entry) : list io :=
  flat_map (fun e => match e with IO c => [c] | _ => [] end) l.

(** The events settled handles have re-emitted later, in the order the
    handles emit them. *)
Definition late_output (l : list entry) : list event :=
  flat_map (fun e => match e with Late ev => [ev] | _ => [] end) l.


(** Every descriptor a call hands to [resin-image-fs] names its image. *)
Definition carries_image (c : io) : Prop :=
  match c with
  | ImagefsCopy input output =>
      Descriptor.image input <> None /\ Descriptor.image output <> None
  | ImagefsReplace f _ _ => Descriptor.image f <> None
  | _ => True
  end.

(** Subscriptions made one after the other. *)
Fixpoint subscribe (em : emitter) (subs : listeners) : emitter * list entry :=
  match subs with
  | [] => (em, [])
  | (event, callback) :: rest =>
      let '(em, calls) := on em event callback in
      let '(em, calls') := subscribe em rest in
      (em, calls ++ calls')
  end.

(** Whether a subscription is one to [end]. *)
Definition to_end (sub : string * nat) : bool := String.eqb (fst sub) "end".


(** The event a signal of a handle is republished as. *)
Definition event_of (s : signal) : list event :=
  match s with
  | SigStdout data => [EvStdout data]
  | SigStderr data => [EvStderr data]
  | SigProgress state => [EvBurn state]
  | _ => []
  end.

(** A write to a drive goes to the drive the options name. *)
Definition writes_to (options : Js.object) (c : io) : Prop :=
  match c with
  | ImageWrite drive _ _ => get options "drive" = Some drive
  | _ => True
  end.

End Behaviour.

(** * Proofs *)

(** ** Strings and lists *)

Lemma append_assoc (a b c : string) :
  ((a ++ b) ++ c = a ++ b ++ c)%string.
Proof. induction a as [|ch a IH]; simpl; [reflexivity | now rewrite IH]. Qed.

Lemma mem_In (x : string) (l : list string) :
  Lodash.mem x l = true <-> In x l.
Proof.
  unfold Lodash.mem. rewrite existsb_exists. split.
  - intros [y [Hy Heq]]. apply String.eqb_eq in Heq. now subst.
  - intros H. exists x. split; [assumption | apply String.eqb_refl].
Qed.

Lemma mem_app (x : string) (l1 l2 : list string) :
  Lodash.mem x (l1 ++ l2) = Lodash.mem x l1 || Lodash.mem x l2.
Proof. unfold Lodash.mem. apply existsb_app. Qed.

Lemma filter_filter {A : Type} (f g : A -> bool) (l : list A) :
  filter f (filter g l) = filter (fun x => g x && f x) l.
Proof.
  induction l as [|x l IH]; simpl; [reflexivity|].
  destruct (g x); simpl; [destruct (f x)|]; now rewrite IH.
Qed.

(** ** Strict equality and matching *)

Section Matching.
Import Js Utils Spec.

Lemma strict_eq_eq (a b : value) : strict_eq a b = true <-> a = b.
Proof.
  destruct a as [s|n], b as [t|m]; simpl.
  - rewrite String.eqb_eq. split; congruence.
  - split; discriminate.
  - split; discriminate.
  - rewrite Z.eqb_eq. split; congruence.
Qed.

(** In an object, the properties are what [get] finds. *)
Lemma wf_In_get (o : Js.object) (k : string) (v : value) :
  wf o -> (In (k, v) o <-> get o k = Some v).
Proof.
  unfold wf, Js.keys. induction o as [|[k' v'] o IH]; simpl.
  - intros _. split; [contradiction | discriminate].
  - intros Hnd. inversion Hnd as [|x l Hnotin Hnd']; subst.
    destruct (String.eqb_spec k' k) as [->|Hne].
    + split.
      * intros [H|H]; [congruence|].
        exfalso. apply Hnotin. change k with (fst (k, v)). now apply in_map.
      * intros [= ->]. now left.
    + rewrite <- (IH Hnd'). split; [|now right].
      intros [H|H]; [congruence | assumption].
Qed.

Lemma isMatch_spec (o source : Js.object) :
  Lodash.isMatch o source = true
  <-> forall k v, In (k, v) source -> get o k = Some v.
Proof.
  unfold Lodash.isMatch. rewrite forallb_forall. split.
  - intros H k v Hin. specialize (H (k, v) Hin). simpl in H.
    destruct (get o k) as [v'|]; [|discriminate].
    apply strict_eq_eq in H. now subst.
  - intros H [k v] Hin. simpl. rewrite (H k v Hin). now apply strict_eq_eq.
Qed.

Lemma isObjectSubset_isMatch (o : Js.object) (subset : option Js.object) :
  isObjectSubset (Some o) subset = Lodash.isMatch o (or_empty subset).
Proof.
  unfold isObjectSubset. simpl.
  destruct subset as [[|kv s]|]; simpl; try reflexivity.
  destruct (Lodash.isMatch o (kv :: s)) eqn:Hm; simpl in Hm; rewrite Hm;
    reflexivity.
Qed.

Lemma isObjectSubset_spec (o : Js.object) (subset : option Js.object) :
  isObjectSubset (Some o) subset = true <-> is_subset subset o.
Proof. rewrite isObjectSubset_isMatch. apply isMatch_spec. Qed.

(** C2: [filterWhenMatches] is the filter by "[when] is a subset of the
    options": it keeps, in order, exactly the operations every property of
    whose [when] is in the options with the same value of the same type.
    A number never matches a string, an absent or empty [when] is always
    kept, and with empty options a non-empty [when] is never kept. *)
Theorem filterWhenMatches_keeps_the_subsets :
  forall (A : Type) (when_of : A -> option Js.object)
         (operations : list A) (options : option Js.object),
    let kept := filterWhenMatches when_of operations options in
    (exists keep : A -> bool,
        (forall op, keep op = true
                    <-> is_subset (when_of op) (or_empty options))
        /\ kept = filter keep operations)
    /\ (forall op, In op kept
                   <-> In op operations
                       /\ is_subset (when_of op) (or_empty options))
    /\ (forall op k n s,
           In (k, VNum n) (or_empty (when_of op)) ->
           get (or_empty options) k = Some (VStr s) -> ~ In op kept)
    /\ (forall op k n s,
           In (k, VStr s) (or_empty (when_of op)) ->
           get (or_empty options) k = Some (VNum n) -> ~ In op kept)
    /\ (forall op, In op operations ->
                   Lodash.isEmpty (when_of op) = true -> In op kept)
    /\ (forall op, or_empty options = [] ->
                   Lodash.isEmpty (when_of op) = false -> ~ In op kept).
Proof.
  intros A when_of operations options kept.
  assert (Hin : forall op, In op kept
                   <-> In op operations
                       /\ is_subset (when_of op) (or_empty options)).
  { intros op. unfold kept, filterWhenMatches. rewrite filter_In.
    now rewrite isObjectSubset_spec. }
  split; [|split; [exact Hin|repeat split]].
  - exists (fun op => isObjectSubset (Some (or_empty options)) (when_of op)).
    split; [intros op; apply isObjectSubset_spec | reflexivity].
  - intros op k n s Hw Ho Hk. apply Hin in Hk as [_ Hs].
    specialize (Hs k _ Hw). congruence.
  - intros op k n s Hw Ho Hk. apply Hin in Hk as [_ Hs].
    specialize (Hs k _ Hw). congruence.
  - intros op Hop He. apply Hin. split; [assumption|].
    intros k v Hkv. destruct (when_of op) as [[|kv w]|]; simpl in *;
      try contradiction; discriminate.
  - intros op Ho He Hk. apply Hin in Hk as [_ Hs]. rewrite Ho in Hs.
    destruct (when_of op) as [[|[k v] w]|]; simpl in *; try discriminate.
    specialize (Hs k v (or_introl eq_refl)). discriminate.
Qed.

End Matching.

(** ** Missing options *)

Section Missing.
Import Js Utils Spec.

Lemma baseUniq_first_seen (result array : list string) :
  Lodash.baseUniq result array
  = result ++ filter (fun y => negb (Lodash.mem y result)) (first_seen array).
Proof.
  revert result. induction array as [|x rest IH]; intros result; simpl.
  - now rewrite app_nil_r.
  - destruct (Lodash.mem x result) eqn:Hx; simpl; rewrite IH.
    + f_equal. rewrite filter_filter. apply filter_ext_in. intros y _.
      destruct (String.eqb_spec y x) as [->|]; simpl; [now rewrite Hx|reflexivity].
    + rewrite <- app_assoc. simpl. do 2 f_equal. rewrite filter_filter.
      apply filter_ext. intros y. rewrite mem_app. simpl.
      rewrite orb_false_r, negb_orb, andb_comm. reflexivity.
Qed.

Lemma uniq_first_seen (array : list string) :
  Lodash.uniq array = first_seen array.
Proof.
  unfold Lodash.uniq. rewrite baseUniq_first_seen. simpl.
  induction (first_seen array) as [|y l IH]; simpl; [reflexivity|].
  now rewrite IH.
Qed.

Lemma first_seen_filter (p : string -> bool) (l : list string) :
  first_seen (filter p l) = filter p (first_seen l).
Proof.
  induction l as [|x rest IH]; simpl; [reflexivity|].
  destruct (p x) eqn:Hp; simpl; rewrite IH, !filter_filter.
  - f_equal. apply filter_ext. intros y. apply andb_comm.
  - apply filter_ext_in. intros y _.
    destruct (String.eqb_spec y x) as [->|]; simpl; [now rewrite Hp|reflexivity].
Qed.

Lemma first_seen_In (x : string) (l : list string) :
  In x (first_seen l) <-> In x l.
Proof.
  induction l as [|y rest IH]; simpl; [reflexivity|].
  rewrite filter_In, IH. split.
  - intros [H|[H _]]; auto.
  - intros [H|H]; auto.
    destruct (String.eqb_spec x y) as [->|Hne]; auto.
Qed.

Lemma first_seen_NoDup (l : list string) : NoDup (first_seen l).
Proof.
  induction l as [|y rest IH]; simpl; constructor.
  - rewrite filter_In. intros [_ H]. now rewrite String.eqb_refl in H.
  - now apply NoDup_filter.
Qed.

Lemma getMissingOptions_spec {A : Type} (when_of : A -> option Js.object)
    (operations : list A) (options : option Js.object) :
  getMissingOptions when_of operations options
  = missingOptions (map when_of operations) (or_empty options).
Proof.
  unfold getMissingOptions, missingOptions, Lodash.flatten, Lodash.difference.
  rewrite uniq_first_seen. apply first_seen_filter.
Qed.

Lemma missingOptions_In {A : Type} (when_of : A -> option Js.object)
    (operations : list A) (options : Js.object) (k : string) :
  In k (missingOptions (map when_of operations) options)
  <-> (exists op, In op operations /\ In k (Lodash.keys (when_of op)))
      /\ ~ In k (Js.keys options).
Proof.
  unfold missingOptions. rewrite filter_In, first_seen_In, in_concat.
  rewrite negb_true_iff, <- not_true_iff_false, mem_In.
  split; intros [H Hn]; split; auto.
  - destruct H as [ks [Hks Hk]]. apply in_map_iff in Hks as [w [<- Hw]].
    apply in_map_iff in Hw as [op [<- Hop]]. now exists op.
  - destruct H as [op [Hop Hk]]. exists (Lodash.keys (when_of op)).
    split; [|assumption]. apply in_map, in_map, Hop.
Qed.

Lemma occurs_in_refl (name : string) : occurs_in name name.
Proof.
  exists "", "". simpl. induction name as [|c name IH]; simpl; congruence.
Qed.

Lemma occurs_in_prepend (name prefix message : string) :
  occurs_in name message -> occurs_in name (prefix ++ message).
Proof.
  intros [b [a ->]]. exists (prefix ++ b)%string, a. now rewrite append_assoc.
Qed.

Lemma occurs_in_append (name message suffix : string) :
  occurs_in name message -> occurs_in name (message ++ suffix).
Proof.
  intros [b [a ->]]. exists b, (a ++ suffix)%string.
  now rewrite !append_assoc.
Qed.

Lemma join_lists (sep name : string) (l : list string) :
  In name l -> occurs_in name (Lodash.join sep l).
Proof.
  induction l as [|x rest IH]; simpl; [contradiction|].
  intros [->|H].
  - destruct rest; [apply occurs_in_refl|].
    apply occurs_in_append, occurs_in_refl.
  - destruct rest as [|y rest']; [contradiction|].
    apply occurs_in_prepend, occurs_in_prepend, IH, H.
Qed.

Lemma toSentence_lists (name : string) (l : list string) :
  In name l -> occurs_in name (Lodash.toSentence l).
Proof.
  intros H. apply in_rev in H. unfold Lodash.toSentence.
  destruct (rev l) as [|lastMember front]; [contradiction|].
  destruct front as [|y front'].
  - destruct H as [->|[]]. apply occurs_in_refl.
  - destruct H as [->|H].
    + apply occurs_in_prepend, occurs_in_prepend, occurs_in_refl.
    + apply occurs_in_append, join_lists. apply in_rev.
      now rewrite rev_involutive.
Qed.

End Missing.

Section Validation.
Import Js Utils Commands Action Operations Spec.

Lemma get_Some_keys (o : Js.object) (k : string) (v : value) :
  get o k = Some v -> In k (Js.keys o).
Proof.
  induction o as [|[k' v'] o IH]; simpl; [discriminate|].
  destruct (String.eqb_spec k' k); auto.
Qed.

Lemma set_keys (o : Js.object) (key : string) (v : value) (k : string) :
  In k (Js.keys (set o key v)) <-> In k (Js.keys o) \/ k = key.
Proof.
  induction o as [|[k' v'] o IH]; simpl.
  - intuition.
  - destruct (String.eqb_spec k' key) as [->|Hne]; simpl.
    + intuition.
    + rewrite IH. intuition.
Qed.

Lemma effective_options_keys (E : env) (options : option Js.object)
    (k : string) :
  In k (Js.keys (effective_options E options))
  <-> In k (Js.keys (or_empty options)) \/ k = "os".
Proof.
  unfold effective_options.
  destruct (get (or_empty options) "os") as [v|] eqn:Hos.
  - apply get_Some_keys in Hos. split; [auto|]. now intros [H| ->].
  - apply set_keys.
Qed.

(** C4: [execute] throws, handing no emitter to the caller and running
    no step, exactly when some option is missing.  The missing options are
    the distinct keys, in first-seen order, of the operations' [when]
    clauses that are not keys of the options as [execute] completes them
    (the caller's, and [os]), and the message of the error thrown lists
    each of them. *)
Theorem execute_throws_iff_options_missing :
  forall (E : env) (img : string) (operations : list ref)
         (options : option Js.object) (st : store) (ls : listeners),
    let missing :=
      missingOptions (map (fun r => when (st r)) operations)
                     (effective_options E options) in
    getMissingOptions (fun r => when (st r)) operations
                      (Some (effective_options E options)) = missing
    /\ (forall k, In k missing
               <-> (exists r, In r operations
                              /\ In k (Lodash.keys (when (st r))))
                   /\ ~ (In k (Js.keys (or_empty options)) \/ k = "os"))
    /\ NoDup missing
    /\ ((exists e, execute E img operations options st ls = inl e)
        <-> missing <> [])
    /\ (forall e, execute E img operations options st ls = inl e ->
          e = JsError ("Missing options: " ++ Lodash.toSentence missing)
          /\ forall k, In k missing ->
               occurs_in k ("Missing options: " ++ Lodash.toSentence missing)).
Proof.
  intros E img operations options st ls missing.
  assert (Hex : execute E img operations options st ls
                = match missing with
                  | [] => execute E img operations options st ls
                  | _ :: _ =>
                      inl (JsError ("Missing options: "
                                    ++ Lodash.toSentence missing))
                  end).
  { unfold execute. rewrite getMissingOptions_spec. cbn [or_empty].
    fold missing. destruct missing; reflexivity. }
  assert (Hinr : missing = [] ->
                 exists r, execute E img operations options st ls = inr r).
  { intros Hm. unfold execute. rewrite getMissingOptions_spec.
    cbn [or_empty]. fold missing. rewrite Hm. eexists; reflexivity. }
  split; [apply getMissingOptions_spec|].
  repeat split.
  - apply missingOptions_In in H. apply H.
  - intros Hk. apply missingOptions_In in H as [_ H]. apply H.
    now apply effective_options_keys.
  - intros [Hop Hk]. apply missingOptions_In. split; [assumption|].
    now rewrite effective_options_keys.
  - unfold missing, missingOptions. apply NoDup_filter, first_seen_NoDup.
  - intros [e He] Hm. destruct (Hinr Hm) as [r Hr]. congruence.
  - intros Hm. destruct missing; [contradiction|]. eexists. exact Hex.
  - rewrite Hex in H. destruct missing as [|k l].
    + destruct (Hinr eq_refl) as [r Hr]. congruence.
    + congruence.
  - intros k Hk. apply occurs_in_prepend, toSentence_lists, Hk.
Qed.

End Validation.

(** ** Completion of a handle *)

Section Streams.
Import Js Utils Spec.

Lemma waitStreamToClose_skips (quiet rest : list signal) :
  forallb unheard quiet = true ->
  waitStreamToClose (quiet ++ rest) = waitStreamToClose rest.
Proof.
  induction quiet as [|s quiet IH]; simpl; [reflexivity|].
  intros H. apply andb_prop in H as [Hs Hq].
  destruct s; simpl in Hs; try discriminate; auto.
Qed.

(** C8: whatever data or progress a handle emits first, the first of
    [close], [end], [done] and [error] decides the step's completion: a
    [close] with a non-zero code rejects with an error whose message
    names the code; a [close] with code 0 or without a code, an [end]
    and a [done] resolve; an [error] rejects with the error given. *)
Theorem waitStreamToClose_first_settling_signal :
  forall (quiet rest : list signal),
    forallb unheard quiet = true ->
    (forall code, code <> 0%Z ->
       waitStreamToClose (quiet ++ SigClose (Some code) :: rest)
       = Rejected (JsError ("Exitted with error code: "
                            ++ number_to_string code)))
    /\ waitStreamToClose (quiet ++ SigClose (Some 0%Z) :: rest) = Resolved
    /\ waitStreamToClose (quiet ++ SigClose None :: rest) = Resolved
    /\ waitStreamToClose (quiet ++ SigEnd :: rest) = Resolved
    /\ waitStreamToClose (quiet ++ SigDone :: rest) = Resolved
    /\ (forall e,
          waitStreamToClose (quiet ++ SigError e :: rest) = Rejected e).
Proof.
  intros quiet rest Hq.
  repeat split; intros; rewrite (waitStreamToClose_skips _ _ Hq); simpl;
    try reflexivity.
  destruct (Z.eqb_spec code 0); [contradiction | reflexivity].
Qed.

Lemma waitStreamToClose_first_settling_signal_witness :
  waitStreamToClose ([SigStdout "out"; SigProgress "10"]
                       ++ SigClose (Some 1%Z) :: [SigEnd])
  = Rejected (JsError "Exitted with error code: 1").
Proof.
  apply (proj1 (waitStreamToClose_first_settling_signal
                  [SigStdout "out"; SigProgress "10"] [SigEnd]
                  eq_refl) 1%Z).
  discriminate.
Defined.

End Streams.

(** ** The command handlers *)

Section Handlers.
Import Js Utils Commands Spec.

(** C7: invoked with options that have no [drive], or with no options
    at all, [burn] rejects with the error "Missing drive option" and has
    called no collaborator: the image is not stat'ed, no read stream is
    opened, nothing is written. *)
Theorem burn_without_drive_fails_before_io :
  forall (E : env) (index : nat) (img : string) (o : operation)
         (options : option Js.object),
    match options with
    | Some opts => get opts "drive" = None
    | None => True
    end ->
    exists o',
      burn E index img o options
      = (o', [], Rejects (JsError "Missing drive option")).
Proof.
  intros E index img o options H. unfold burn.
  assert (Hd : get (or_empty options) "drive" = None)
    by (destruct options; [exact H | reflexivity]).
  rewrite Hd. eexists. reflexivity.
Qed.

(** C10: [run-script] gives the operation the script path
    [path.join(image, operation.script)] and, if it had none, the empty
    argument list, before anything is called; it then makes that path
    executable and, once that is done, spawns that path with those
    arguments.  Nothing else is spawned. *)
Theorem run_script_spawns_the_joined_path :
  forall (E : env) (index : nat) (img : string) (o : operation) (s : string),
    script o = Some s ->
    let joined := path_join E img s in
    let args := match arguments o with Some a => a | None => [] end in
    exists o' calls out,
      run_script E index img o = (o', calls, out)
      /\ script o' = Some joined
      /\ arguments o' = Some args
      /\ (forall path a, In (Spawn path a) calls -> path = joined /\ a = args)
      /\ match fs_chmod E index joined 755 with
         | None =>
             calls = [Chmod joined 755; Spawn joined args]
             /\ out = child_process_spawn E index joined args
         | Some e => calls = [Chmod joined 755] /\ out = Rejects e
         end.
Proof.
  intros E index img o s Hs joined args. unfold run_script. rewrite Hs.
  fold joined. subst args.
  assert (Hspawn : forall (spawned : list string) path a,
             In (Spawn path a) [Chmod joined 755; Spawn joined spawned] ->
             path = joined /\ a = spawned).
  { intros spawned path a [H|[H|[]]]; [discriminate|]. now inversion H. }
  assert (Hchmod : forall path a (spawned : list string),
             In (Spawn path a) [Chmod joined 755] ->
             path = joined /\ a = spawned).
  { intros path a spawned [H|[]]. discriminate. }
  destruct (arguments o) as [a|] eqn:Ha;
    do 3 (cbn [arguments with_script with_arguments]; rewrite ?Ha);
    destruct (fs_chmod E index joined 755) as [e|] eqn:Hc;
    do 3 eexists; (split; [reflexivity|]); cbn [script arguments];
    (split; [reflexivity|]); (split; [assumption || reflexivity|]);
    (split; [|split; reflexivity]); intros path args;
    first [apply Hspawn | apply Hchmod].
Qed.

End Handlers.

(** ** The pipeline *)

Section Pipeline.
Import Js Utils Commands Action Operations Spec.

Lemma emitted_app (l1 l2 : list entry) :
  emitted (l1 ++ l2) = emitted l1 ++ emitted l2.
Proof. apply flat_map_app. Qed.

Lemma emitted_emit (ls : listeners) (ev : event) : emitted (emit ls ev) = [ev].
Proof.
  unfold emit. simpl. f_equal.
  induction (filter _ ls) as [|l rest IH]; simpl; auto.
Qed.

Lemma milestone_emit (ls : listeners) (ev : event) :
  filter milestone (emit ls ev) = if is_state ev then [Emit ev] else [].
Proof.
  unfold emit.
  assert (H : filter milestone
                (map (fun l : string * nat => Call (snd l) ev)
                     (filter (fun l => String.eqb (fst l) (name ev)) ls)) = []).
  { induction (filter _ ls) as [|l rest IH]; simpl; auto. }
  cbn [filter]. rewrite H. destruct ev; reflexivity.
Qed.

Lemma milestone_IO (calls : list io) : filter milestone (map IO calls) = [].
Proof. induction calls; simpl; auto. Qed.

Lemma emitted_IO (calls : list io) : emitted (map IO calls) = [].
Proof. induction calls; simpl; auto. Qed.

Lemma milestone_straggle (handle : list signal) :
  filter milestone (straggle handle) = [].
Proof. induction handle as [|[] rest IH]; cbn; auto. Qed.

Lemma emitted_straggle (handle : list signal) :
  emitted (straggle handle) = [].
Proof. induction handle as [|[] rest IH]; cbn; auto. Qed.

Lemma milestone_republish (ls : listeners) (handle : list signal) :
  filter milestone (republish ls handle) = [].
Proof.
  induction handle as [|s rest IH]; [reflexivity|].
  destruct s; cbn [republish]; try apply milestone_straggle; try exact IH;
    rewrite filter_app, milestone_emit, IH; reflexivity.
Qed.

Lemma emitted_republish (ls : listeners) (handle : list signal) :
  forallb is_output (emitted (republish ls handle)) = true.
Proof.
  induction handle as [|s rest IH]; [reflexivity|].
  destruct s; cbn [republish]; rewrite ?emitted_straggle;
    try reflexivity; try exact IH;
    rewrite emitted_app, emitted_emit, forallb_app, IH; reflexivity.
Qed.

Lemma step_log (E : env) (img : string) (options : Js.object)
    (ls : listeners) (length index : nat) (action : member) (r : ref)
    (st : store) :
  fst (fst (step E img options ls length index (action, r) st))
  = emit ls (EvState r (getOperationProgress index length))
    ++ Invoke r
    :: map IO (snd (fst (invoke E index img options action (st r) (descriptor_of st))))
    ++ match snd (invoke E index img options action (st r) (descriptor_of st)) with
       | Fulfilled handle => republish ls handle
       | Rejects _ => []
       end.
Proof.
  unfold step.
  destruct (invoke E index img options action (st r) (descriptor_of st)) as [[o calls] out].
  destruct out as [handle|e]; cbn [fst snd].
  - now rewrite <- app_assoc.
  - now rewrite app_nil_r.
Qed.

Lemma step_shape (E : env) (img : string) (options : Js.object)
    (ls : listeners) (length index : nat) (action : member) (r : ref)
    (st : store) :
  let log := fst (fst (step E img options ls length index (action, r) st)) in
  filter milestone log
  = [Emit (EvState r (getOperationProgress index length)); Invoke r]
  /\ forallb (fun ev => is_state ev || is_output ev) (emitted log) = true.
Proof.
  intros log. subst log. rewrite step_log.
  destruct (invoke E index img options action (st r) (descriptor_of st)) as [[o calls] out].
  cbn [fst snd].
  set (output := match out with
                 | Fulfilled handle => republish ls handle
                 | Rejects _ => []
                 end).
  assert (Hm : filter milestone output = []).
  { subst output. destruct out; [apply milestone_republish|reflexivity]. }
  assert (He : forallb is_output (emitted output) = true).
  { subst output. destruct out; [apply emitted_republish|reflexivity]. }
  split.
  - rewrite filter_app, milestone_emit. cbn [is_state filter milestone].
    now rewrite filter_app, milestone_IO, Hm.
  - rewrite emitted_app, emitted_emit.
    change (emitted (Invoke r :: map IO calls ++ output))
      with (emitted (map IO calls ++ output)).
    rewrite emitted_app, emitted_IO. cbn [app forallb is_state orb andb].
    rewrite forallb_forall in He. apply forallb_forall. intros ev Hev.
    rewrite (He ev Hev). apply orb_true_r.
Qed.

Lemma each_shape (E : env) (img : string) (options : Js.object)
    (ls : listeners) (length : nat) (promises : list (member * ref)) :
  forall index (st : store),
    let result := each E img options ls length index promises st in
    forallb (fun ev => is_state ev || is_output ev)
            (emitted (fst (fst result))) = true
    /\ (steps_complete E img options ls length index promises st ->
        snd result = Resolved
        /\ filter milestone (fst (fst result))
           = state_then_invoke length index (map snd promises)).
Proof.
  induction promises as [|[action r] rest IH]; intros index st;
    cbn [each steps_complete].
  - cbn. auto.
  - destruct (step_shape E img options ls length index action r st)
      as [Hm He].
    destruct (step E img options ls length index (action, r) st)
      as [[log1 st1] c1].
    cbn [fst snd] in Hm, He.
    destruct c1; cbn [fst snd].
    + split; [assumption|]. intros [Hc _]. discriminate.
    + specialize (IH (S index) st1). cbn zeta in IH.
      destruct (each E img options ls length (S index) rest st1)
        as [[log2 st2] c2].
      cbn [fst snd] in *. destruct IH as [He2 Hrest]. split.
      * now rewrite emitted_app, forallb_app, He, He2.
      * intros [_ Hc]. destruct (Hrest Hc) as [-> Hm2]. split; [reflexivity|].
        rewrite filter_app, Hm, Hm2. reflexivity.
    + split; [assumption|]. intros [Hc _]. discriminate.
Qed.

Lemma run_all_refs (E : env) (st : store) (operations : list ref) :
  forall promises,
    run_all E st operations = inr promises -> map snd promises = operations.
Proof.
  induction operations as [|r rest IH]; simpl; intros promises H.
  - now inversion H.
  - destruct (run E (st r)); [discriminate|].
    destruct (run_all E st rest); [discriminate|].
    inversion H. simpl. f_equal. now apply IH.
Qed.

Lemma filterWhenMatches_no_when (st : store) (operations : list ref)
    (options : option Js.object) :
  (forall r, In r operations -> when (st r) = None) ->
  filterWhenMatches (fun r => when (st r)) operations options = operations.
Proof.
  intros H. unfold filterWhenMatches.
  induction operations as [|r rest IH]; simpl; [reflexivity|].
  rewrite (H r (or_introl eq_refl)). simpl. f_equal.
  apply IH. intros r' Hr'. apply H. now right.
Qed.

Lemma getMissingOptions_no_when (st : store) (operations : list ref)
    (options : option Js.object) :
  (forall r, In r operations -> when (st r) = None) ->
  getMissingOptions (fun r => when (st r)) operations options = [].
Proof.
  intros H. unfold getMissingOptions.
  assert (Hu : Lodash.flatten
                 (map Lodash.keys (map (fun r => when (st r)) operations))
               = []).
  { induction operations as [|r rest IH]; simpl; [reflexivity|].
    rewrite (H r (or_introl eq_refl)). simpl.
    apply IH. intros r' Hr'. apply H. now right. }
  rewrite Hu. reflexivity.
Qed.

(** C1: when no operation has a [when] clause and every step completes
    successfully, [execute] returns its emitter and the run goes as
    follows.  Its [state] events and handler invocations are, in list
    order, one [state] event for each operation directly followed by the
    invocation of that operation; the events emitted are these [state]
    events and the steps' output, then one [end] event; no [error] event
    is emitted.  With no operations, [end] is the only event. *)
Theorem execute_emits_state_per_operation_then_end :
  forall (E : env) (img : string) (operations : list ref)
         (options : option Js.object) (st : store) (ls : listeners),
    (forall r, In r operations -> when (st r) = None) ->
    every_step_completes E img operations options st ls ->
    exists r body,
      execute E img operations options st ls = inr r
      /\ filter milestone (log r)
         = state_then_invoke (List.length operations) 0 operations
      /\ emitted (log r) = body ++ [EvEnd]
      /\ forallb (fun ev => is_state ev || is_output ev) body = true
      /\ filter is_end (emitted (log r)) = [EvEnd]
      /\ filter is_error (emitted (log r)) = []
      /\ (operations = [] -> emitted (log r) = [EvEnd]).
Proof.
  intros E img operations options st ls Hwhen Hsteps.
  unfold execute. rewrite (getMissingOptions_no_when _ _ _ Hwhen).
  unfold chain. rewrite (filterWhenMatches_no_when _ _ _ Hwhen).
  unfold every_step_completes in Hsteps.
  destruct (run_all E st operations) as [e|promises] eqn:Hrun;
    [contradiction|].
  destruct (each E img (effective_options E options) ls
                 (List.length operations) 0 promises st)
    as [[steps st'] c] eqn:Heach.
  destruct (each_shape E img (effective_options E options) ls
                       (List.length operations) promises 0 st) as [Hev Hc].
  rewrite Heach in Hev, Hc. cbn [fst snd] in Hev, Hc.
  destruct (Hc Hsteps) as [-> Hm].
  rewrite (run_all_refs _ _ _ _ Hrun) in Hm.
  assert (Hbody : forall body,
             forallb (fun ev => is_state ev || is_output ev) body = true ->
             filter is_end body = [] /\ filter is_error body = []).
  { induction body as [|ev l IH]; simpl; [auto|].
    intros H. apply andb_prop in H as [Hh Hl]. destruct (IH Hl) as [-> ->].
    destruct ev; simpl in *; auto; discriminate. }
  destruct (Hbody _ Hev) as [Hend Herr].
  exists {| log := steps ++ emit ls EvEnd;
            final := Succeeded;
            operations_after := st';
            options_after := effective_options E options;
            the_emitter := {| subscribed := ls; ended := true;
                              on_patched := true |} |}, (emitted steps).
  cbn [log]. rewrite emitted_app, emitted_emit, !filter_app.
  rewrite milestone_emit, Hend, Herr, app_nil_r. simpl.
  repeat split; try assumption.
  intros ->. simpl in Hrun. inversion Hrun; subst. simpl in Heach.
  now inversion Heach.
Qed.

End Pipeline.

Section Termination.
Import Js Utils Commands Action Operations Spec.

Lemma execute_chain (E : env) (img : string) (operations : list ref)
    (options : option Js.object) (st : store) (ls : listeners) (r : result) :
  execute E img operations options st ls = inr r ->
  r = chain E img operations (effective_options E options) st ls.
Proof.
  unfold execute. destruct (getMissingOptions _ _ _); [|discriminate].
  congruence.
Qed.

Lemma calls_of_app (callback : nat) (l1 l2 : list entry) :
  calls_of callback (l1 ++ l2) = calls_of callback l1 ++ calls_of callback l2.
Proof. apply flat_map_app. Qed.

Section Fresh.
Variable ls : listeners.
Variable callback : nat.
Hypothesis fresh : forall event, ~ In (event, callback) ls.

Lemma calls_of_emit (ev : event) : calls_of callback (emit ls ev) = [].
Proof.
  unfold emit. cbn [calls_of flat_map app].
  induction ls as [|[event c] l IH]; [reflexivity|].
  assert (Hl : forall event, ~ In (event, callback) l)
    by (intros event' H; apply (fresh event'); now right).
  cbn [filter fst].
  destruct (String.eqb event (name ev)); [|now apply IH].
  cbn [map flat_map snd].
  destruct (Nat.eqb_spec c callback) as [->|Hne].
  - exfalso. apply (fresh event). now left.
  - now apply IH.
Qed.

Lemma calls_of_straggle (handle : list signal) :
  calls_of callback (straggle handle) = [].
Proof. induction handle as [|[] rest IH]; cbn; auto. Qed.

Lemma calls_of_republish (handle : list signal) :
  calls_of callback (republish ls handle) = [].
Proof.
  induction handle as [|s rest IH]; [reflexivity|].
  destruct s; cbn [republish]; try apply calls_of_straggle; try exact IH;
    now rewrite calls_of_app, calls_of_emit, IH.
Qed.

Lemma calls_of_IO (calls : list io) : calls_of callback (map IO calls) = [].
Proof. induction calls; simpl; auto. Qed.

Lemma calls_of_step (E : env) (img : string) (options : Js.object)
    (length index : nat) (promise : member * ref) (st : store) :
  calls_of callback
    (fst (fst (step E img options ls length index promise st))) = [].
Proof.
  destruct promise as [action r]. rewrite step_log.
  rewrite calls_of_app, calls_of_emit.
  change (calls_of callback (Invoke r :: ?l)) with (calls_of callback l).
  rewrite calls_of_app, calls_of_IO.
  destruct (snd _); [apply calls_of_republish | reflexivity].
Qed.

Lemma calls_of_each (E : env) (img : string) (options : Js.object)
    (length : nat) (promises : list (member * ref)) :
  forall index (st : store),
    calls_of callback
      (fst (fst (each E img options ls length index promises st))) = [].
Proof.
  induction promises as [|promise rest IH]; intros index st; cbn [each];
    [reflexivity|].
  pose proof (calls_of_step E img options length index promise st) as Hs.
  destruct (step E img options ls length index promise st)
    as [[log1 st1] c1].
  cbn [fst] in Hs. destruct c1; cbn [fst]; try assumption.
  specialize (IH (S index) st1).
  destruct (each E img options ls length (S index) rest st1)
    as [[log2 st2] c2].
  cbn [fst] in *. now rewrite calls_of_app, Hs, IH.
Qed.

Lemma calls_of_chain (E : env) (img : string) (operations : list ref)
    (options : Js.object) (st : store) :
  calls_of callback (log (chain E img operations options st ls)) = [].
Proof.
  unfold chain. destruct (run_all _ _ _) as [e|promises].
  - apply calls_of_emit.
  - pose proof (calls_of_each E img options
                  (List.length
                     (filterWhenMatches (fun r => when (st r)) operations
                        (Some options))) promises 0 st) as He.
    destruct (each _ _ _ _ _ _ _ _) as [[steps st'] c].
    cbn [fst] in He.
    destruct c; cbn [log]; rewrite ?calls_of_app, ?calls_of_emit, He;
      reflexivity.
Qed.
End Fresh.

(** C5: subscribing to [end] on the emitter of a run that has ended
    successfully calls the subscriber at once, inside the subscription,
    and registers nothing; on the emitter of a run that has ended with an
    error it only registers the subscriber.  A subscriber that was not
    registered before is thus called exactly once after a success, and
    not at all after a failure, the run emitting nothing more. *)
Theorem late_end_subscriber_called_only_after_success :
  forall (E : env) (img : string) (operations : list ref)
         (options : option Js.object) (st : store) (ls : listeners)
         (r : result) (callback : nat),
    execute E img operations options st ls = inr r ->
    (forall event, ~ In (event, callback) ls) ->
    let late := on (the_emitter r) "end" callback in
    (final r = Succeeded ->
       late = (the_emitter r, [Call callback EvEnd])
       /\ calls_of callback (log r ++ snd late) = [EvEnd])
    /\ (forall e, final r = Failed e ->
          snd late = []
          /\ subscribed (fst late) = ls ++ [("end", callback)]
          /\ calls_of callback (log r ++ snd late) = []).
Proof.
  intros E img operations options st ls r callback Hex Hfresh late.
  apply execute_chain in Hex.
  pose proof (calls_of_chain ls callback Hfresh E img operations
                (effective_options E options) st) as Hcalls.
  rewrite <- Hex in Hcalls. subst late.
  rewrite calls_of_app, Hcalls.
  clear Hcalls. subst r. unfold chain.
  destruct (run_all _ _ _) as [e|promises].
  - cbn. split; [discriminate|]. intros e' _. auto.
  - destruct (each _ _ _ _ _ _ _ _) as [[steps st'] c].
    destruct c; cbn [final the_emitter on on_patched ended andb String.eqb
                     Ascii.eqb Bool.eqb subscribed fst snd calls_of flat_map
                     app].
    + split; [discriminate|]. intros e' H. discriminate.
    + rewrite Nat.eqb_refl. split; [auto|]. intros e' H. discriminate.
    + split; [discriminate|]. intros e' _. auto.
Qed.

End Termination.

(** ** Unknown commands *)

Section Dispatch.
Import Js Utils Commands Action Operations Spec.

Lemma run_unknown (E : env) (o : operation) :
  commands E (command o) = None ->
  run E o = inl (JsError ("Unknown command: " ++ command o)).
Proof. intros H. unfold run. now rewrite H. Qed.

Lemma run_commands (E : env) (o : operation) (action : member) :
  run E o = inr action -> commands E (command o) = Some action.
Proof.
  unfold run. destruct (commands E (command o)) as [[h|[|]]|];
    congruence.
Qed.

Lemma run_all_first_failure (E : env) (st : store) (before : list ref)
    (x : ref) (after : list ref) (e : error) :
  (forall y, In y before -> exists action, run E (st y) = inr action) ->
  run E (st x) = inl e ->
  run_all E st (before ++ x :: after) = inl e.
Proof.
  intros Hb Hx. induction before as [|y before IH]; simpl.
  - now rewrite Hx.
  - destruct (Hb y (or_introl eq_refl)) as [action ->].
    rewrite IH; [reflexivity|]. intros z Hz. apply Hb. now right.
Qed.

Lemma run_all_commands (E : env) (st : store) (operations : list ref) :
  forall promises,
    run_all E st operations = inr promises ->
    forall action r, In (action, r) promises ->
                     commands E (command (st r)) = Some action.
Proof.
  induction operations as [|x rest IH]; simpl; intros promises H action r Hin.
  - inversion H; subst. contradiction.
  - destruct (run E (st x)) as [|a] eqn:Hx; [discriminate|].
    destruct (run_all E st rest) as [|ps]; [discriminate|].
    inversion H; subst. destruct Hin as [Heq|Hin].
    + inversion Heq; subst. now apply run_commands.
    + now apply (IH ps).
Qed.

Lemma run_all_some_failure (E : env) (st : store) (before : list ref)
    (x : ref) (after : list ref) (e : error) :
  run E (st x) = inl e ->
  exists e', run_all E st (before ++ x :: after) = inl e'.
Proof.
  intros Hx. induction before as [|y before IH]; simpl.
  - rewrite Hx. now eexists.
  - destruct (run E (st y)) as [e'|action]; [now eexists|].
    destruct IH as [e' ->]. now eexists.
Qed.

(** C6, as amended: when a filtered operation names a command that is
    not in the registry, the error is reported as the chain starts and
    before any step: no operation is invoked, no collaborator is called,
    no [state] or output event is emitted, and the run emits exactly one
    event, an [error] event; it never emits [end].  The error is the
    unknown-command error of that operation when it is the first one whose
    command is not a function of the registry. *)
Theorem unknown_command_reported_before_any_step :
  forall (E : env) (img : string) (operations : list ref)
         (options : option Js.object) (st : store) (ls : listeners)
         (r : result) (before : list ref) (x : ref) (after : list ref),
    execute E img operations options st ls = inr r ->
    filtered E operations options st = before ++ x :: after ->
    commands E (command (st x)) = None ->
    (exists error,
        log r = emit ls (EvError error)
        /\ emitted (log r) = [EvError error]
        /\ final r = Failed error)
    /\ filter milestone (log r) = []
    /\ (forall y, ~ In (Invoke y) (log r))
    /\ (forall call, ~ In (IO call) (log r))
    /\ filter is_end (emitted (log r)) = []
    /\ ((forall y, In y before -> exists action, run E (st y) = inr action) ->
        log r = emit ls (EvError (JsError ("Unknown command: "
                                           ++ command (st x))))).
Proof.
  intros E img operations options st ls r before x after Hex Hf Hx.
  apply execute_chain in Hex. subst r. unfold chain.
  unfold filtered in Hf. rewrite Hf.
  pose proof (run_unknown E (st x) Hx) as Hrun.
  assert (Hfirst :
            (forall y, In y before -> exists action, run E (st y) = inr action) ->
            run_all E st (before ++ x :: after)
            = inl (JsError ("Unknown command: " ++ command (st x)))).
  { intros Hb. now apply run_all_first_failure. }
  destruct (run_all_some_failure E st before x after _ Hrun) as [error Hall].
  rewrite Hall in *. cbn [log final].
  assert (Hno : forall e : entry,
             In e (emit ls (EvError error)) ->
             e = Emit (EvError error) \/ exists c, e = Call c (EvError error)).
  { unfold emit. intros e [<-|He]; [now left|]. right.
    apply in_map_iff in He as [l [<- _]]. now eexists. }
  split; [|split; [|split; [|split; [|split]]]].
  - exists error. split; [reflexivity|]. split; [apply emitted_emit|reflexivity].
  - now rewrite milestone_emit.
  - intros y Hy. apply Hno in Hy as [Hy|[c Hy]]; discriminate.
  - intros call Hc. apply Hno in Hc as [Hc|[c Hc]]; discriminate.
  - now rewrite emitted_emit.
  - intros Hb. specialize (Hfirst Hb). congruence.
Qed.

Lemma unknown_command_reported_before_any_step_witness :
  log (chain example_env "img" [0; 3] (effective_options example_env None)
             example_store [])
  = [Emit (EvError (JsError "Unknown command: foo"))].
Proof.
  apply (unknown_command_reported_before_any_step
           example_env "img" [0; 3] None example_store [] _ [0] 3 []
           eq_refl eq_refl eq_refl).
  intros y [<-|[]]. eexists. reflexivity.
Defined.

(** C6, as stated, fails: with a [copy] followed by an unknown command,
    the [copy] is never invoked. *)
Lemma unknown_command_not_reported_at_its_step :
  ~ unknown_command_reported_at_its_step
      example_env "img" [0; 3] None example_store [].
Proof.
  intros H.
  destruct (H _ [0] 3 [] eq_refl eq_refl eq_refl) as [Hbefore _].
  destruct (Hbefore 0 (or_introl eq_refl)) as [Hinvoke _].
  vm_compute in Hinvoke. destruct Hinvoke as [Hi|[]]. discriminate.
Qed.

End Dispatch.

(** ** What a run does to the operation records *)

Section Frame.
Import Js Utils Commands Action Operations Spec.

Variable E : env.
Variable img : string.














(** What a handler leaves: [copy] and [replace] leave the record,
    [run-script] and [burn] the descriptors. *)
Lemma copy_descriptors (index : nat) (o : operation) (h : heap) :
  fst (fst (copy E index img o h))
  = match from o with
    | None => h
    | Some base =>
        match to o with
        | None => default_image_at img base h
        | Some base1 =>
            default_image_at img base1 (default_image_at img base h)
        end
    end.
Proof.
  unfold copy. destruct (from o); [|reflexivity].
  destruct (to o); reflexivity.
Qed.

Lemma replace_descriptors (index : nat) (o : operation) (h : heap) :
  fst (fst (replace_ E index img o h))
  = match file o with
    | None => h
    | Some base => default_image_at img base h
    end.
Proof. unfold replace_. destruct (file o); reflexivity. Qed.

Lemma invoke_left (index : nat) (options : Js.object) (action : member)
    (o : operation) (h : heap) :
  fst (fst (invoke E index img options action o h))
  = match action with
    | Own Copy => (o, fst (fst (copy E index img o h)))
    | Own Replace => (o, fst (fst (replace_ E index img o h)))
    | Own RunScript => (fst (fst (run_script E index img o)), h)
    | Own Burn => (fst (fst (burn E index img o (Some options))), h)
    | Inherited _ => (o, h)
    end.
Proof.
  destruct action as [[]|callable]; cbn [invoke]; try reflexivity.
  - destruct (copy E index img o h) as [[h' calls] out]. reflexivity.
  - destruct (replace_ E index img o h) as [[h' calls] out]. reflexivity.
  - destruct (run_script E index img o) as [[o' calls] out]. reflexivity.
  - destruct (burn E index img o (Some options)) as [[o' calls] out].
    reflexivity.
Qed.





Lemma step_store (options : Js.object) (ls : listeners)
    (length index : nat) (action : member) (r : ref) (st : store) :
  snd (fst (step E img options ls length index (action, r) st))
  = update st r
      (fst (fst (invoke E index img options action (st r)
                        (descriptor_of st)))).
Proof.
  unfold step.
  destruct (invoke E index img options action (st r) (descriptor_of st))
    as [[o calls] out].
  destruct out; reflexivity.
Qed.


End Frame.

Section FrameOfRun.
Import Js Utils Commands Action Operations Spec.




(** A descriptor is shared with whoever holds it: operation 4 is filtered
    out and its record is as it was, but the descriptor it has as [from]
    is the one operation 0 has, and names the image after the run. *)
Remark shared_descriptor_is_injected :
  let r := chain example_env "img" [0; 4]
                 (effective_options example_env
                                    (Some [("processorType", VStr "Z7020")]))
                 example_store [] in
  from (operations_after r 4) = Some 0
  /\ Descriptor.image (descriptor_of example_store 0) = None
  /\ Descriptor.image (descriptor_of (operations_after r) 0) = Some "img".
Proof. repeat split. Qed.

End FrameOfRun.

(** ** Arithmetic of numbers: rounding to nearest *)

Section Rounding.
Import Action Spec.
Local Open Scope Q_scope.

Lemma inject_xO (p : positive) : inject_Z (Z.pos p~0) == 2 * inject_Z (Z.pos p).
Proof. rewrite Pos2Z.inj_xO, inject_Z_mult. reflexivity. Qed.

Lemma inject_xI (p : positive) :
  inject_Z (Z.pos p~1) == 2 * inject_Z (Z.pos p) + 1.
Proof. rewrite Pos2Z.inj_xI, inject_Z_plus, inject_Z_mult. reflexivity. Qed.

Lemma shr_1_inbetween (mrs : shr_record) (v : Q) :
  (0 <= shr_m mrs)%Z ->
  inbetween (shr_m mrs) (loc_of_shr_record mrs) v ->
  inbetween (shr_m (shr_1 mrs)) (loc_of_shr_record (shr_1 mrs)) (v * (1#2))
  /\ shr_m (shr_1 mrs) = (shr_m mrs / 2)%Z.
Proof.
  destruct mrs as [m r s]. cbn [shr_m]. intros Hm.
  destruct m as [|p|p]; [| |lia].
  - change (inject_Z 0) with 0.
    destruct r, s; cbn [shr_1 orb shr_m loc_of_shr_record inbetween];
      change (inject_Z 0) with 0; intros H; (split; [lra|reflexivity]).
  - destruct p as [p|p|]; destruct r, s;
      cbn [shr_1 orb shr_m loc_of_shr_record inbetween];
      rewrite ?inject_xO, ?inject_xI;
      change (inject_Z 0) with 0; change (inject_Z 1) with 1;
      intros H; (split; [lra|]).
    all: try (rewrite Pos2Z.inj_xI; apply Z.div_unique with 1%Z; lia).
    all: try (rewrite Pos2Z.inj_xO; apply Z.div_unique with 0%Z; lia).
    all: reflexivity.
Qed.

Lemma iter_pos_nat {A : Type} (f : A -> A) (p : positive) (x : A) :
  SpecFloat.iter_pos f p x = Nat.iter (Pos.to_nat p) f x.
Proof.
  revert x. induction p as [p IH|p IH|]; intros x; cbn [SpecFloat.iter_pos].
  - rewrite Pos2Nat.inj_xI. rewrite !IH.
    replace (S (2 * Pos.to_nat p)) with (Pos.to_nat p + S (Pos.to_nat p))%nat
      by lia.
    rewrite Nat.iter_add. f_equal. now rewrite Nat.iter_succ_r.
  - rewrite Pos2Nat.inj_xO. rewrite !IH.
    replace (2 * Pos.to_nat p)%nat with (Pos.to_nat p + Pos.to_nat p)%nat
      by lia.
    now rewrite Nat.iter_add.
  - reflexivity.
Qed.

Lemma inbetween_ext (m : Z) (l : location) (v w : Q) :
  v == w -> inbetween m l v -> inbetween m l w.
Proof. intros E. destruct l as [|[]]; cbn [inbetween]; rewrite E; auto. Qed.

Lemma shr_iter_inbetween (n : nat) (mrs : shr_record) (v : Q) :
  (0 <= shr_m mrs)%Z ->
  inbetween (shr_m mrs) (loc_of_shr_record mrs) v ->
  let mrs' := Nat.iter n shr_1 mrs in
  inbetween (shr_m mrs') (loc_of_shr_record mrs') (v * half_pow n)
  /\ shr_m mrs' = (shr_m mrs / 2 ^ Z.of_nat n)%Z.
Proof.
  intros Hm Hv. induction n as [|n IH]; cbn zeta in *.
  - cbn [Nat.iter half_pow]. split.
    + apply inbetween_ext with v; [ring|assumption].
    + change (2 ^ Z.of_nat 0)%Z with 1%Z. now rewrite Z.div_1_r.
  - change (Nat.iter (S n) shr_1 mrs) with (shr_1 (Nat.iter n shr_1 mrs)).
    cbn [half_pow]. destruct IH as [IH1 IH2].
    assert (H0 : (0 <= shr_m (Nat.iter n shr_1 mrs))%Z).
    { rewrite IH2. apply Z.div_pos; lia. }
    destruct (shr_1_inbetween _ _ H0 IH1) as [H1 H2]. split.
    + apply inbetween_ext with (v * half_pow n * (1#2)); [ring|assumption].
    + rewrite H2, IH2, Nat2Z.inj_succ, Z.pow_succ_r by lia.
      rewrite Z.div_div by lia. f_equal. lia.
Qed.

Lemma round_nearest_even_near (m : Z) (l : location) (v : Q) :
  inbetween m l v ->
  let m' := round_nearest_even m l in
  (m <= m' <= m + 1)%Z
  /\ inject_Z m' - (1#2) <= v /\ v <= inject_Z m' + (1#2).
Proof.
  intros H. destruct l as [|[]]; cbn [round_nearest_even inbetween] in *.
  - cbn zeta. split; [lia|lra].
  - destruct (Z.even m); cbn zeta; rewrite ?inject_Z_plus;
      change (inject_Z 1) with 1; split; try lia; lra.
  - cbn zeta. split; [lia|lra].
  - cbn zeta. rewrite inject_Z_plus. change (inject_Z 1) with 1.
    split; [lia|lra].
Qed.
Lemma pow2_pos (e : Z) : 0 < pow2 e.
Proof. apply Qpower_0_lt. reflexivity. Qed.

Lemma pow2_add (a b : Z) : pow2 (a + b) == pow2 a * pow2 b.
Proof. apply Qpower_plus. discriminate. Qed.

Lemma pow2_half_pow (n : nat) : pow2 (Z.of_nat n) * half_pow n == 1.
Proof.
  induction n as [|n IH]; [reflexivity|].
  rewrite Nat2Z.inj_succ, <- Z.add_1_r, pow2_add. cbn [half_pow].
  change (pow2 1) with 2.
  transitivity (pow2 (Z.of_nat n) * half_pow n); [ring | exact IH].
Qed.

Lemma digits2_pos_bounds (p : positive) :
  (2 ^ (Z.pos (digits2_pos p) - 1) <= Z.pos p < 2 ^ Z.pos (digits2_pos p))%Z.
Proof.
  induction p as [p IH|p IH|]; cbn [digits2_pos].
  - rewrite Pos2Z.inj_succ, (Pos2Z.inj_xI p).
    replace (Z.succ (Z.pos (digits2_pos p)) - 1)%Z
      with (Z.succ (Z.pos (digits2_pos p) - 1)) by lia.
    rewrite !Z.pow_succ_r by lia. lia.
  - rewrite Pos2Z.inj_succ, (Pos2Z.inj_xO p).
    replace (Z.succ (Z.pos (digits2_pos p)) - 1)%Z
      with (Z.succ (Z.pos (digits2_pos p) - 1)) by lia.
    rewrite !Z.pow_succ_r by lia. lia.
  - cbn. lia.
Qed.

Lemma Zdigits2_bounds (m : Z) :
  (0 < m)%Z -> (2 ^ (Zdigits2 m - 1) <= m < 2 ^ Zdigits2 m)%Z.
Proof. destruct m; try lia. intros _. apply digits2_pos_bounds. Qed.

Lemma Zdigits2_unique (m k : Z) :
  (2 ^ (k - 1) <= m < 2 ^ k)%Z -> (0 < k)%Z -> Zdigits2 m = k.
Proof.
  intros Hm Hk.
  assert (H0 : (0 < m)%Z).
  { assert (0 < 2 ^ (k - 1))%Z by (apply Z.pow_pos_nonneg; lia). lia. }
  pose proof (Zdigits2_bounds m H0) as Hd.
  assert (Hdpos : (0 < Zdigits2 m)%Z) by (destruct m; simpl; lia).
  destruct (Z.lt_trichotomy (Zdigits2 m) k) as [Hlt|[Heq|Hgt]]; [|assumption|].
  - assert (2 ^ Zdigits2 m <= 2 ^ (k - 1))%Z
      by (apply Z.pow_le_mono_r; lia). lia.
  - assert (2 ^ k <= 2 ^ (Zdigits2 m - 1))%Z
      by (apply Z.pow_le_mono_r; lia). lia.
Qed.

Lemma shr_nat (mrs : shr_record) (e n : Z) :
  (0 <= n)%Z -> shr mrs e n = (Nat.iter (Z.to_nat n) shr_1 mrs, (e + n)%Z).
Proof.
  intros Hn. unfold shr. destruct n as [|p|p]; [| |lia].
  - now rewrite Z.add_0_r.
  - now rewrite iter_pos_nat.
Qed.

Lemma loc_of_shr_record_of_loc (m : Z) (l : location) :
  loc_of_shr_record (shr_record_of_loc m l) = l
  /\ shr_m (shr_record_of_loc m l) = m.
Proof. destruct l as [|[]]; split; reflexivity. Qed.

(** Rounding a positive value that needs no less than 53 bits, in the
    range of normal numbers: the result is a 53-bit mantissa within half a
    unit in the last place of the value. *)
Lemma binary_round_aux_correct (mx ex : Z) (lx : location) (v : Q) :
  (0 < mx)%Z -> (53 <= Zdigits2 mx)%Z ->
  (-1074 <= Zdigits2 mx + ex - 53)%Z -> (Zdigits2 mx + ex - 52 <= 971)%Z ->
  inbetween mx lx v ->
  exists m e,
    binary_round_aux 53 1024 false mx ex lx = S754_finite false m e
    /\ (2 ^ 52 <= Z.pos m < 2 ^ 53)%Z
    /\ (Zdigits2 mx + ex - 53 <= e <= Zdigits2 mx + ex - 52)%Z
    /\ (1 - u) * F2Q (Z.pos m) e <= v * pow2 ex
    /\ v * pow2 ex <= (1 + u) * F2Q (Z.pos m) e.
Proof.
  intros Hmx Hd Hlo Hhi Hv.
  set (d := Zdigits2 mx) in *.
  set (n := Z.to_nat (d - 53)).
  assert (Hn : Z.of_nat n = (d - 53)%Z) by (subst n; lia).
  unfold binary_round_aux, shr_fexp. fold d.
  assert (Hf : fexp 53 1024 (d + ex) = (d + ex - 53)%Z).
  { unfold fexp, emin. lia. }
  rewrite Hf. replace (d + ex - 53 - ex)%Z with (d - 53)%Z by lia.
  rewrite shr_nat by lia. fold n.
  destruct (loc_of_shr_record_of_loc mx lx) as [Hl Hm].
  assert (H0 : (0 <= shr_m (shr_record_of_loc mx lx))%Z) by (rewrite Hm; lia).
  assert (Hv' : inbetween (shr_m (shr_record_of_loc mx lx))
                  (loc_of_shr_record (shr_record_of_loc mx lx)) v)
    by (now rewrite Hl, Hm).
  destruct (shr_iter_inbetween n _ v H0 Hv') as [Hin Hdiv].
  set (mrs' := Nat.iter n shr_1 (shr_record_of_loc mx lx)) in *.
  rewrite Hm, Hn in Hdiv.
  pose proof (Zdigits2_bounds mx Hmx) as Hb. fold d in Hb.
  assert (Hm1 : (2 ^ 52 <= shr_m mrs' < 2 ^ 53)%Z).
  { rewrite Hdiv.
    assert (Hp : (0 < 2 ^ (d - 53))%Z) by (apply Z.pow_pos_nonneg; lia).
    assert (E1 : (2 ^ (d - 1) = 2 ^ 52 * 2 ^ (d - 53))%Z)
      by (rewrite <- Z.pow_add_r by lia; f_equal; lia).
    assert (E2 : (2 ^ d = 2 ^ 53 * 2 ^ (d - 53))%Z)
      by (rewrite <- Z.pow_add_r by lia; f_equal; lia).
    split.
    - apply Z.div_le_lower_bound; lia.
    - apply Z.div_lt_upper_bound; lia. }
  destruct (round_nearest_even_near _ _ _ Hin) as [Hr [Hlow Hupp]].
  set (m2 := round_nearest_even (shr_m mrs') (loc_of_shr_record mrs')) in *.
  cbn zeta in Hr.
  set (w := v * half_pow n) in *.
  assert (Hw : w * pow2 (ex + (d - 53)) == v * pow2 ex).
  { unfold w. rewrite pow2_add, <- Hn.
    transitivity (v * pow2 ex * (pow2 (Z.of_nat n) * half_pow n)); [ring|].
    rewrite pow2_half_pow. ring. }
  assert (Hq : 4503599627370496 <= inject_Z m2).
  { change 4503599627370496 with (inject_Z (2 ^ 52)).
    rewrite <- Zle_Qle. lia. }
  assert (Hrel : (1 - u) * inject_Z m2 <= w /\ w <= (1 + u) * inject_Z m2).
  { unfold u. split; lra. }
  pose proof (pow2_pos (ex + (d - 53))) as Hpos.
  assert (Hval : (1 - u) * (inject_Z m2 * pow2 (ex + (d - 53))) <= v * pow2 ex
                 /\ v * pow2 ex
                    <= (1 + u) * (inject_Z m2 * pow2 (ex + (d - 53)))).
  { rewrite <- Hw. destruct Hrel as [Ha Hb'].
    split.
    - apply Qle_trans with ((1 - u) * inject_Z m2 * pow2 (ex + (d - 53)));
        [apply Qle_lteq; right; ring|].
      apply Qmult_le_compat_r; [assumption | now apply Qlt_le_weak].
    - apply Qle_trans with ((1 + u) * inject_Z m2 * pow2 (ex + (d - 53)));
        [|apply Qle_lteq; right; ring].
      apply Qmult_le_compat_r; [assumption | now apply Qlt_le_weak]. }
  change (shr_record_of_loc m2 loc_Exact)
    with {| shr_m := m2; shr_r := false; shr_s := false |}.
  destruct (Z.eq_dec m2 (2 ^ 53)) as [Heq|Hne].
  - (* the mantissa overflowed to 2^53: one more shift *)
    rewrite Heq in *.
    change (Zdigits2 (2 ^ 53)) with 54%Z.
    assert (Hf2 : fexp 53 1024 (54 + (ex + (d - 53))) = (ex + (d - 53) + 1)%Z).
    { unfold fexp, emin. lia. }
    rewrite Hf2.
    replace (ex + (d - 53) + 1 - (ex + (d - 53)))%Z with 1%Z by lia.
    cbn [shr SpecFloat.iter_pos shr_1 shr_m]. 
    change (2 ^ 53)%Z with 9007199254740992%Z.
    cbn [shr_1 shr_m orb].
    assert (Hle : (ex + (d - 53) + 1 <=? 1024 - 53)%Z = true)
      by (apply Z.leb_le; lia).
    rewrite Hle.
    eexists _, _. split; [reflexivity|].
    split; [lia|]. split; [lia|].
    assert (Hsame : F2Q 4503599627370496 (ex + (d - 53) + 1)
                    == inject_Z 9007199254740992 * pow2 (ex + (d - 53))).
    { unfold F2Q. rewrite pow2_add. change (pow2 1) with 2.
      change (inject_Z 4503599627370496) with 4503599627370496.
      change (inject_Z 9007199254740992) with 9007199254740992. ring. }
    rewrite Hsame. exact Hval.
  - assert (Hd2 : Zdigits2 m2 = 53%Z) by (apply Zdigits2_unique; lia).
    rewrite Hd2.
    assert (Hf2 : fexp 53 1024 (53 + (ex + (d - 53))) = (ex + (d - 53))%Z).
    { unfold fexp, emin. lia. }
    rewrite Hf2, Z.sub_diag. cbn [shr shr_m].
    destruct m2 as [|p|p]; try lia.
    assert (Hle : (ex + (d - 53) <=? 1024 - 53)%Z = true)
      by (apply Z.leb_le; lia).
    rewrite Hle.
    eexists _, _. split; [reflexivity|].
    split; [lia|]. split; [lia|]. exact Hval.
Qed.

Lemma pow2_inject (k : Z) : (0 <= k)%Z -> pow2 k == inject_Z (2 ^ k).
Proof. intros Hk. unfold pow2. now rewrite Zpower_Qpower. Qed.

Lemma pow2_opp (k : Z) : (0 <= k)%Z -> pow2 (- k) * inject_Z (2 ^ k) == 1.
Proof.
  intros Hk. rewrite <- pow2_inject by assumption.
  rewrite <- pow2_add. replace (- k + k)%Z with 0%Z by lia. reflexivity.
Qed.

Lemma canonical_round (m : positive) (e : Z) :
  (2 ^ 52 <= Z.pos m < 2 ^ 53)%Z -> (-1074 <= e <= 971)%Z ->
  binary_round_aux 53 1024 false (Z.pos m) e loc_Exact
  = S754_finite false m e.
Proof.
  intros Hm He. unfold binary_round_aux, shr_fexp.
  assert (Hd : Zdigits2 (Z.pos m) = 53%Z) by (apply Zdigits2_unique; lia).
  rewrite Hd.
  assert (Hf : fexp 53 1024 (53 + e) = e) by (unfold fexp, emin; lia).
  rewrite Hf, Z.sub_diag.
  cbn [shr shr_record_of_loc shr_m loc_of_shr_record round_nearest_even].
  rewrite Hd, Hf, Z.sub_diag. cbn [shr shr_record_of_loc shr_m].
  assert (Hle : (e <=? 1024 - 53)%Z = true) by (apply Z.leb_le; lia).
  now rewrite Hle.
Qed.

Lemma iter_xO (p k : positive) :
  Z.pos (Pos.iter xO p k) = (Z.pos p * 2 ^ Z.pos k)%Z.
Proof.
  induction k as [|k IH] using Pos.peano_ind.
  - cbn [Pos.iter]. rewrite (Pos2Z.inj_xO p). lia.
  - rewrite Pos.iter_succ, (Pos2Z.inj_xO (Pos.iter xO p k)), IH.
    rewrite Pos2Z.inj_succ, Z.pow_succ_r by lia. lia.
Qed.

(** An integer below 2^53 is a number, exactly. *)
Lemma of_Z_exact (a : Z) :
  (0 < a < 2 ^ 53)%Z ->
  exists m e,
    binary_normalize 53 1024 a 0 false = S754_finite false m e
    /\ (2 ^ 52 <= Z.pos m < 2 ^ 53)%Z
    /\ (-52 <= e <= 0)%Z
    /\ F2Q (Z.pos m) e == inject_Z a.
Proof.
  intros Ha. destruct a as [|p|p]; try lia.
  cbn [binary_normalize]. unfold binary_round.
  pose proof (digits2_pos_bounds p) as Hb.
  set (d := Z.pos (digits2_pos p)) in *.
  assert (Hd : (1 <= d <= 53)%Z).
  { split; [subst d; lia|].
    destruct (Z.le_gt_cases d 53) as [|Hgt]; [assumption|].
    assert (2 ^ 53 <= 2 ^ (d - 1))%Z by (apply Z.pow_le_mono_r; lia). lia. }
  assert (Hf : fexp 53 1024 (d + 0) = (d - 53)%Z) by (unfold fexp, emin; lia).
  rewrite Hf. unfold shl_align.
  replace (d - 53 - 0)%Z with (d - 53)%Z by lia.
  destruct (d - 53)%Z as [|k|k] eqn:Hk; try lia.
  - assert (H53 : d = 53%Z) by lia.
    assert (Hb' : (2 ^ 52 <= Z.pos p < 2 ^ 53)%Z)
      by (rewrite H53 in Hb; exact Hb).
    rewrite canonical_round by lia.
    exists p, 0%Z. repeat split; try lia.
    unfold F2Q. change (pow2 0) with 1. ring.
  - assert (Hk' : Z.pos k = (53 - d)%Z) by lia.
    assert (Hm : Z.pos (Pos.iter xO p k) = (Z.pos p * 2 ^ (53 - d))%Z)
      by (rewrite iter_xO; now rewrite Hk').
    assert (Hp : (0 < 2 ^ (53 - d))%Z) by (apply Z.pow_pos_nonneg; lia).
    assert (E1 : (2 ^ 52 = 2 ^ (d - 1) * 2 ^ (53 - d))%Z)
      by (rewrite <- Z.pow_add_r by lia; f_equal; lia).
    assert (E2 : (2 ^ 53 = 2 ^ d * 2 ^ (53 - d))%Z)
      by (rewrite <- Z.pow_add_r by lia; f_equal; lia).
    rewrite canonical_round by (rewrite ?Hm; nia).
    exists (Pos.iter xO p k), (Z.neg k). split; [reflexivity|].
    split; [rewrite Hm; nia|]. split; [lia|].
    unfold F2Q. rewrite Hm, inject_Z_mult.
    change (Z.neg k) with (- Z.pos k)%Z. rewrite Hk'.
    transitivity (inject_Z (Z.pos p)
                  * (pow2 (- (53 - d)) * inject_Z (2 ^ (53 - d)))); [ring|].
    rewrite pow2_opp by lia. ring.
Qed.

(** The location of a remainder. *)
Lemma new_location_inbetween (a q r : Z) (b : positive) :
  a = (Z.pos b * q + r)%Z -> (0 <= r < Z.pos b)%Z ->
  inbetween q (new_location (Z.pos b) r) (a # b).
Proof.
  intros Ha Hr.
  assert (Hab : a # b == inject_Z q + (r # b)).
  { unfold Qeq, Qplus, inject_Z. cbn [Qnum Qden]. rewrite Ha. 
    rewrite Pos2Z.inj_mul. ring. }
  assert (Hlt : forall x y : Z, (x # b) < (y # 2) <-> (2 * x < y * Z.pos b)%Z).
  { intros x y. unfold Qlt. cbn [Qnum Qden]. lia. }
  assert (Hgt : forall x y : Z, (y # 2) < (x # b) <-> (y * Z.pos b < 2 * x)%Z).
  { intros x y. unfold Qlt. cbn [Qnum Qden]. lia. }
  assert (H0 : 0 < (r # b) <-> (0 < r)%Z).
  { unfold Qlt. cbn [Qnum Qden]. lia. }
  assert (H1 : (r # b) < 1).
  { unfold Qlt. cbn [Qnum Qden]. lia. }
  apply inbetween_ext with (inject_Z q + (r # b)); [now symmetry|].
  assert (H2 : r # b == 1 # 2 <-> (2 * r = Z.pos b)%Z).
  { unfold Qeq. cbn [Qnum Qden]. lia. }
  assert (H3 : r # b == 0 <-> (r = 0)%Z).
  { unfold Qeq. cbn [Qnum Qden]. lia. }
  clear Hab. revert H0 H1 H2 H3.
  generalize (Hlt r 1%Z), (Hgt r 1%Z). clear Hlt Hgt.
  generalize (r # b). intros x Hlt Hgt H0 H1 H2 H3.
  unfold new_location.
  destruct (Z.even (Z.pos b)) eqn:Hev;
    unfold new_location_even, new_location_odd;
    (destruct (r =? 0)%Z eqn:Hr0;
     [apply Z.eqb_eq in Hr0 | apply Z.eqb_neq in Hr0]).
  - assert (E : x == 0) by now apply H3.
    clear - E. cbn [inbetween]. lra.
  - assert (Hrpos : 0 < x) by (apply H0; lia).
    destruct (Z.compare_spec (2 * r) (Z.pos b)) as [Hc|Hc|Hc];
      cbn [inbetween].
    + assert (E : x == 1 # 2) by now apply H2. clear - E. lra.
    + assert (Hx : x < 1 # 2) by (apply Hlt; lia).
      clear - Hx Hrpos H1. split; lra.
    + assert (Hx : 1 # 2 < x) by (apply Hgt; lia).
      clear - Hx Hrpos H1. split; lra.
  - assert (E : x == 0) by now apply H3.
    clear - E. cbn [inbetween]. lra.
  - assert (Hrpos : 0 < x) by (apply H0; lia).
    assert (Hodd : (2 * r <> Z.pos b)%Z).
    { intros Hc. rewrite <- Hc, Z.even_mul in Hev. discriminate. }
    destruct (Z.compare_spec (2 * r + 1) (Z.pos b)) as [Hc|Hc|Hc];
      cbn [inbetween].
    + assert (Hx : x < 1 # 2) by (apply Hlt; lia).
      clear - Hx Hrpos H1. split; lra.
    + assert (Hx : x < 1 # 2) by (apply Hlt; lia).
      clear - Hx Hrpos H1. split; lra.
    + assert (Hx : 1 # 2 < x) by (apply Hgt; lia).
      clear - Hx Hrpos H1. split; lra.
Qed.

Lemma F2Q_pos (m : positive) (e : Z) : 0 < F2Q (Z.pos m) e.
Proof.
  unfold F2Q. apply Qmult_lt_0_compat; [|apply pow2_pos].
  change 0 with (inject_Z 0). rewrite <- Zlt_Qlt. lia.
Qed.

Lemma Qmake_inject (a : Z) (b : positive) :
  (a # b) * inject_Z (Z.pos b) == inject_Z a.
Proof. unfold Qeq, Qmult, inject_Z. cbn [Qnum Qden]. lia. Qed.

Lemma scale_bounds (F V Y : Q) :
  0 < Y -> (1 - u) * F <= V -> V <= (1 + u) * F ->
  (1 - u) * (F * Y) <= V * Y /\ V * Y <= (1 + u) * (F * Y).
Proof.
  intros HY H1 H2. split.
  - apply Qle_trans with ((1 - u) * F * Y); [apply Qle_lteq; right; ring|].
    apply Qmult_le_compat_r; [assumption | now apply Qlt_le_weak].
  - apply Qle_trans with ((1 + u) * F * Y); [|apply Qle_lteq; right; ring].
    apply Qmult_le_compat_r; [assumption | now apply Qlt_le_weak].
Qed.

(** Division of normal numbers: the quotient is within half a unit in the
    last place. *)
Lemma div_correct (mx my : positive) (ex ey : Z) :
  (2 ^ 52 <= Z.pos mx < 2 ^ 53)%Z -> (2 ^ 52 <= Z.pos my < 2 ^ 53)%Z ->
  (-300 <= ex <= 300)%Z -> (-300 <= ey <= 300)%Z ->
  exists m e,
    SFdiv 53 1024 (S754_finite false mx ex) (S754_finite false my ey)
    = S754_finite false m e
    /\ (2 ^ 52 <= Z.pos m < 2 ^ 53)%Z
    /\ (ex - ey - 53 <= e <= ex - ey - 51)%Z
    /\ (1 - u) * (F2Q (Z.pos m) e * F2Q (Z.pos my) ey) <= F2Q (Z.pos mx) ex
    /\ F2Q (Z.pos mx) ex <= (1 + u) * (F2Q (Z.pos m) e * F2Q (Z.pos my) ey).
Proof.
  intros Hmx Hmy Hex Hey. unfold SFdiv, SFdiv_core_binary.
  rewrite (Zdigits2_unique (Z.pos mx) 53) by lia.
  rewrite (Zdigits2_unique (Z.pos my) 53) by lia.
  assert (Hf : fexp 53 1024 (53 + ex - (53 + ey)) = (ex - ey - 53)%Z)
    by (unfold fexp, emin; lia).
  rewrite Hf.
  replace (Z.min (ex - ey - 53) (ex - ey)) with (ex - ey - 53)%Z by lia.
  replace (ex - ey - (ex - ey - 53))%Z with 53%Z by lia.
  rewrite Z.shiftl_mul_pow2 by lia.
  pose proof (Z_div_mod (Z.pos mx * 2 ^ 53) (Z.pos my) eq_refl) as Hdm.
  destruct (Z.div_eucl (Z.pos mx * 2 ^ 53) (Z.pos my)) as [q r].
  destruct Hdm as [Ha Hr]. cbn [xorb].
  assert (Hq : (2 ^ 52 <= q < 2 ^ 54)%Z).
  { change (2 ^ 52)%Z with 4503599627370496%Z in *.
    change (2 ^ 53)%Z with 9007199254740992%Z in *.
    change (2 ^ 54)%Z with 18014398509481984%Z. nia. }
  assert (Hdq : (53 <= Zdigits2 q <= 54)%Z).
  { destruct (Z.lt_ge_cases q (2 ^ 53)).
    - rewrite (Zdigits2_unique q 53); lia.
    - rewrite (Zdigits2_unique q 54); lia. }
  destruct (binary_round_aux_correct q (ex - ey - 53)
              (new_location (Z.pos my) r) ((Z.pos mx * 2 ^ 53) # my))
    as (m & e & Hres & Hm & He & Hlo & Hhi); try lia.
  { now apply new_location_inbetween. }
  exists m, e. split; [exact Hres|]. split; [exact Hm|]. split; [lia|].
  assert (HV : ((Z.pos mx * 2 ^ 53) # my) * pow2 (ex - ey - 53)
               * F2Q (Z.pos my) ey == F2Q (Z.pos mx) ex).
  { unfold F2Q.
    transitivity (((Z.pos mx * 2 ^ 53) # my) * inject_Z (Z.pos my)
                  * (pow2 (ex - ey - 53) * pow2 ey)); [ring|].
    rewrite Qmake_inject, inject_Z_mult, <- pow2_add.
    rewrite <- (pow2_inject 53) by lia.
    transitivity (inject_Z (Z.pos mx) * (pow2 53 * pow2 (ex - ey - 53 + ey)));
      [ring|].
    rewrite <- pow2_add. replace (53 + (ex - ey - 53 + ey))%Z with ex by lia.
    reflexivity. }
  rewrite <- HV. apply scale_bounds; [apply F2Q_pos | assumption..].
Qed.

(** Multiplication of normal numbers, likewise. *)
Lemma mul_correct (mx my : positive) (ex ey : Z) :
  (2 ^ 52 <= Z.pos mx < 2 ^ 53)%Z -> (2 ^ 52 <= Z.pos my < 2 ^ 53)%Z ->
  (-300 <= ex <= 300)%Z -> (-300 <= ey <= 300)%Z ->
  exists m e,
    SFmul 53 1024 (S754_finite false mx ex) (S754_finite false my ey)
    = S754_finite false m e
    /\ (2 ^ 52 <= Z.pos m < 2 ^ 53)%Z
    /\ (1 - u) * F2Q (Z.pos m) e <= F2Q (Z.pos mx) ex * F2Q (Z.pos my) ey
    /\ F2Q (Z.pos mx) ex * F2Q (Z.pos my) ey <= (1 + u) * F2Q (Z.pos m) e.
Proof.
  intros Hmx Hmy Hex Hey. unfold SFmul. cbn [xorb].
  assert (Hp : (2 ^ 104 <= Z.pos (mx * my) < 2 ^ 106)%Z).
  { rewrite Pos2Z.inj_mul.
    change (2 ^ 52)%Z with 4503599627370496%Z in *.
    change (2 ^ 53)%Z with 9007199254740992%Z in *.
    change (2 ^ 104)%Z with (4503599627370496 * 4503599627370496)%Z.
    change (2 ^ 106)%Z with (9007199254740992 * 9007199254740992)%Z. nia. }
  assert (Hd : (105 <= Zdigits2 (Z.pos (mx * my)) <= 106)%Z).
  { destruct (Z.lt_ge_cases (Z.pos (mx * my)) (2 ^ 105)).
    - rewrite (Zdigits2_unique _ 105); lia.
    - rewrite (Zdigits2_unique _ 106); lia. }
  destruct (binary_round_aux_correct (Z.pos (mx * my)) (ex + ey) loc_Exact
              (inject_Z (Z.pos (mx * my))))
    as (m & e & Hres & Hm & He & Hlo & Hhi); try lia.
  { cbn [inbetween]. reflexivity. }
  exists m, e. split; [exact Hres|]. split; [exact Hm|].
  assert (HV : inject_Z (Z.pos (mx * my)) * pow2 (ex + ey)
               == F2Q (Z.pos mx) ex * F2Q (Z.pos my) ey).
  { unfold F2Q. rewrite Pos2Z.inj_mul, inject_Z_mult, pow2_add. ring. }
  rewrite <- HV. split; assumption.
Qed.

(** Dividing a number by itself gives 1. *)
Lemma div_self (m : positive) (e : Z) :
  (2 ^ 52 <= Z.pos m < 2 ^ 53)%Z -> (-300 <= e <= 300)%Z ->
  SFdiv 53 1024 (S754_finite false m e) (S754_finite false m e)
  = S754_finite false 4503599627370496 (-52).
Proof.
  intros Hm He. unfold SFdiv, SFdiv_core_binary.
  rewrite (Zdigits2_unique (Z.pos m) 53) by lia.
  assert (Hf : fexp 53 1024 (53 + e - (53 + e)) = (-53)%Z)
    by (replace (53 + e - (53 + e))%Z with 0%Z by lia; reflexivity).
  rewrite Hf, Z.sub_diag.
  change (Z.min (-53) 0) with (-53)%Z.
  change (0 - -53)%Z with 53%Z.
  rewrite Z.shiftl_mul_pow2 by lia.
  assert (Hdiv : Z.div_eucl (Z.pos m * 2 ^ 53) (Z.pos m) = (2 ^ 53, 0)%Z).
  { pose proof (Z_div_mod (Z.pos m * 2 ^ 53) (Z.pos m) eq_refl) as Hdm.
    destruct (Z.div_eucl (Z.pos m * 2 ^ 53) (Z.pos m)) as [q r].
    destruct Hdm as [Ha Hr].
    assert (q = 2 ^ 53)%Z by nia. assert (r = 0)%Z by nia. congruence. }
  rewrite Hdiv.
  assert (Hloc : new_location (Z.pos m) 0 = loc_Exact).
  { unfold new_location, new_location_even, new_location_odd.
    destruct (Z.even (Z.pos m)); reflexivity. }
  rewrite Hloc. reflexivity.
Qed.

(** [toFixed(1)] gives the nearest tenth, the larger of two. *)
Lemma toFixed1_pos_floor (m : positive) (e : Z) :
  let n := Number.toFixed1_pos m e in
  inject_Z n <= 10 * F2Q (Z.pos m) e + (1#2)
  /\ 10 * F2Q (Z.pos m) e + (1#2) < inject_Z n + 1.
Proof.
  unfold Number.toFixed1_pos, F2Q.
  destruct (Z.leb_spec 0 e) as [He|He]; cbn zeta.
  - rewrite pow2_inject by assumption.
    rewrite !inject_Z_mult. change (inject_Z 10) with 10. split; lra.
  - set (D := (2 ^ (- e))%Z).
    assert (HD : (0 < D)%Z) by (apply Z.pow_pos_nonneg; lia).
    pose proof (Z.mul_div_le (20 * Z.pos m + D) (2 * D) ltac:(lia)) as H1.
    pose proof (Z.mul_succ_div_gt (20 * Z.pos m + D) (2 * D) ltac:(lia)) as H2.
    set (n := ((20 * Z.pos m + D) / (2 * D))%Z) in *.
    assert (HDQ : 0 < inject_Z D)
      by (change 0 with (inject_Z 0); rewrite <- Zlt_Qlt; lia).
    assert (Hinv : pow2 e * inject_Z D == 1).
    { replace e with (- - e)%Z by lia. apply pow2_opp. lia. }
    assert (Hx : (10 * (inject_Z (Z.pos m) * pow2 e) + (1#2)) * (2 * inject_Z D)
                 == inject_Z (20 * Z.pos m + D)).
    { rewrite inject_Z_plus, inject_Z_mult. change (inject_Z 20) with 20.
      transitivity (20 * inject_Z (Z.pos m) * (pow2 e * inject_Z D)
                    + inject_Z D); [ring|].
      rewrite Hinv. ring. }
    assert (H2D : 0 < 2 * inject_Z D) by lra.
    split.
    + apply (Qmult_le_r _ _ _ H2D). rewrite Hx.
      apply Qle_trans with (inject_Z (2 * D * n)).
      * apply Qle_lteq. right. rewrite !inject_Z_mult.
        change (inject_Z 2) with 2. ring.
      * rewrite <- Zle_Qle. exact H1.
    + apply (Qmult_lt_r _ _ _ H2D). rewrite Hx.
      apply Qlt_le_trans with (inject_Z (2 * D * Z.succ n)).
      * rewrite <- Zlt_Qlt. exact H2.
      * apply Qle_lteq. right. unfold Z.succ.
        rewrite !inject_Z_mult, inject_Z_plus.
        change (inject_Z 2) with 2. change (inject_Z 1) with 1. ring.
Qed.


(** The value [getOperationProgress] rounds: the number it prints in
    tenths, and the quotient computed, which is within two roundings of
    [100 * (index + 1) / length]. *)
Lemma progress_value (index length : nat) :
  (index < length)%nat -> (Z.of_nat length < 2 ^ 32)%Z ->
  exists (n : Z) (x : Q),
    getOperationProgress index length = Number.Tenths n
    /\ inject_Z n <= 10 * x + (1#2)
    /\ 10 * x + (1#2) < inject_Z n + 1
    /\ (1 - u) * (1 - u) * (x * inject_Z (Z.of_nat length))
       <= 100 * inject_Z (Z.of_nat index + 1)
    /\ 100 * inject_Z (Z.of_nat index + 1)
       <= (1 + u) * (1 + u) * (x * inject_Z (Z.of_nat length)).
Proof.
  intros Hi HN. unfold getOperationProgress, Number.of_Z, Number.div,
    Number.mul, Number.prec, Number.emax.
  set (a := (Z.of_nat index + 1)%Z). set (N := Z.of_nat length) in *.
  assert (Ha : (0 < a <= N)%Z) by lia.
  assert (H32 : (2 ^ 32 < 2 ^ 53)%Z) by reflexivity.
  destruct (of_Z_exact a) as (ma & ea & -> & Hma & Hea & Hva); [lia|].
  destruct (of_Z_exact N) as (mN & eN & -> & HmN & HeN & HvN); [lia|].
  destruct (div_correct ma mN ea eN) as (m1 & e1 & -> & Hm1 & He1 & Hlo1 & Hhi1);
    try lia.
  change (binary_normalize 53 1024 100 0 false)
    with (S754_finite false 7036874417766400 (-46)).
  destruct (mul_correct m1 7036874417766400 e1 (-46))
    as (m2 & e2 & -> & Hm2 & Hlo2 & Hhi2); try lia.
  assert (H100 : F2Q 7036874417766400 (-46) == 100) by reflexivity.
  rewrite H100 in Hlo2, Hhi2. rewrite Hva, HvN in Hlo1, Hhi1.
  exists (Number.toFixed1_pos m2 e2), (F2Q (Z.pos m2) e2).
  destruct (toFixed1_pos_floor m2 e2) as [Hn1 Hn2].
  split; [reflexivity|]. split; [exact Hn1|]. split; [exact Hn2|].
  assert (HQN : 0 < inject_Z N)
    by (change 0 with (inject_Z 0); rewrite <- Zlt_Qlt; lia).
  destruct (scale_bounds _ _ _ HQN Hlo2 Hhi2) as [Hs1 Hs2].
  set (p1 := F2Q (Z.pos m1) e1 * inject_Z N) in *.
  set (p2 := F2Q (Z.pos m2) e2 * inject_Z N) in *.
  assert (E : F2Q (Z.pos m1) e1 * 100 * inject_Z N == 100 * p1)
    by (unfold p1; ring).
  rewrite E in Hs1, Hs2. unfold u in *. split; lra.
Qed.

Lemma inject_bound (a N : Z) :
  (a <= N)%Z -> (N < 2 ^ 32)%Z -> inject_Z a <= 4294967296.
Proof.
  intros Ha HN. change 4294967296 with (inject_Z (2 ^ 32)).
  rewrite <- Zle_Qle. lia.
Qed.

Lemma progress_nearest_tenth (index length : nat) (n : Z) :
  (index < length)%nat -> (Z.of_nat length < 2 ^ 32)%Z ->
  getOperationProgress index length = Number.Tenths n ->
  (Z.abs (2 * n * Z.of_nat length - 2000 * (Z.of_nat index + 1))
   <= Z.of_nat length)%Z.
Proof.
  intros Hi HN Hp.
  destruct (progress_value index length Hi HN)
    as (n' & x & Hp' & Hn1 & Hn2 & Hlo & Hhi).
  rewrite Hp in Hp'. injection Hp' as <-.
  set (a := (Z.of_nat index + 1)%Z) in *. set (N := Z.of_nat length) in *.
  assert (HQN : 0 < inject_Z N)
    by (change 0 with (inject_Z 0); rewrite <- Zlt_Qlt; lia).
  pose proof (inject_bound a N ltac:(lia) HN) as Hb.
  assert (H1 : inject_Z n * inject_Z N
               <= (10 * x + (1#2)) * inject_Z N)
    by (apply Qmult_le_compat_r; [assumption | now apply Qlt_le_weak]).
  assert (H2 : (10 * x + (1#2)) * inject_Z N
               < (inject_Z n + 1) * inject_Z N)
    by (apply Qmult_lt_compat_r; assumption).
  set (p := x * inject_Z N) in *.
  set (P := inject_Z n * inject_Z N) in *.
  assert (E1 : (10 * x + (1#2)) * inject_Z N == 10 * p + (1#2) * inject_Z N)
    by (unfold p; ring).
  assert (E2 : (inject_Z n + 1) * inject_Z N == P + inject_Z N)
    by (unfold P; ring).
  rewrite E1 in H1, H2. rewrite E2 in H2.
  assert (Hup : 2 * P < 2000 * inject_Z a + inject_Z N + 1)
    by (unfold u in *; lra).
  assert (Hdn : 2000 * inject_Z a - inject_Z N - 1 < 2 * P)
    by (unfold u in *; lra).
  assert (HupZ : (2 * n * N < 2000 * a + N + 1)%Z).
  { rewrite Zlt_Qlt, !inject_Z_plus, !inject_Z_mult.
    change (inject_Z 2) with 2. change (inject_Z 2000) with 2000.
    change (inject_Z 1) with 1. unfold P in Hup. lra. }
  assert (HdnZ : (2000 * a - N - 1 < 2 * n * N)%Z).
  { rewrite Zlt_Qlt. unfold Z.sub.
    rewrite !inject_Z_plus, !inject_Z_opp, !inject_Z_mult.
    change (inject_Z 2) with 2. change (inject_Z 2000) with 2000.
    change (inject_Z 1) with 1. unfold P in Hdn. lra. }
  lia.
Qed.

Lemma progress_monotone (index later length : nat) (n n' : Z) :
  (index <= later < length)%nat -> (Z.of_nat length < 2 ^ 32)%Z ->
  getOperationProgress index length = Number.Tenths n ->
  getOperationProgress later length = Number.Tenths n' ->
  (n <= n')%Z.
Proof.
  intros [Hle Hlt] HN Hp Hp'.
  destruct (Nat.eq_dec index later) as [->|Hne].
  { rewrite Hp in Hp'. injection Hp' as <-. lia. }
  destruct (progress_value index length ltac:(lia) HN)
    as (m & x & Hm & Hn1 & Hn2 & Hlo & Hhi).
  destruct (progress_value later length Hlt HN)
    as (m' & x' & Hm' & Hn1' & Hn2' & Hlo' & Hhi').
  rewrite Hp in Hm. injection Hm as <-.
  rewrite Hp' in Hm'. injection Hm' as <-.
  set (N := Z.of_nat length) in *.
  assert (HQN : 0 < inject_Z N)
    by (change 0 with (inject_Z 0); rewrite <- Zlt_Qlt; lia).
  pose proof (inject_bound (Z.of_nat index + 1) N ltac:(lia) HN) as Hb.
  set (a := (Z.of_nat index + 1)%Z) in *.
  set (a' := (Z.of_nat later + 1)%Z) in *.
  assert (Hstep : (a + 1 <= a')%Z) by lia.
  rewrite Zle_Qle, inject_Z_plus in Hstep.
  change (inject_Z 1) with 1 in Hstep.
  assert (Hx : x < x').
  { apply (Qmult_lt_r _ _ _ HQN).
    set (p := x * inject_Z N) in *. set (p' := x' * inject_Z N) in *.
    unfold u in *. lra. }
  assert (Hn : inject_Z n < inject_Z n' + 1) by lra.
  change 1 with (inject_Z 1) in Hn.
  rewrite <- inject_Z_plus, <- Zlt_Qlt in Hn. lia.
Qed.

Lemma progress_last (length : nat) :
  (0 < length)%nat -> (Z.of_nat length < 2 ^ 32)%Z ->
  getOperationProgress (length - 1) length = Number.Tenths 1000.
Proof.
  intros Hl HN. unfold getOperationProgress, Number.of_Z, Number.div,
    Number.mul, Number.prec, Number.emax.
  replace (Z.of_nat (length - 1) + 1)%Z with (Z.of_nat length) by lia.
  assert (H32 : (2 ^ 32 < 2 ^ 53)%Z) by reflexivity.
  destruct (of_Z_exact (Z.of_nat length)) as (m & e & -> & Hm & He & Hv);
    [lia|].
  rewrite div_self by lia. reflexivity.
Qed.

End Rounding.

(** ** The percentages of a run *)

Section Percentages.
Import Js Utils Commands Action Operations Spec.

Lemma each_milestones_prefix (E : env) (img : string) (options : Js.object)
    (ls : listeners) (length : nat) (promises : list (member * ref)) :
  forall index (st : store),
  exists rest,
    state_then_invoke length index (map snd promises)
    = filter milestone
        (fst (fst (each E img options ls length index promises st))) ++ rest.
Proof.
  induction promises as [|[action r] rest IH]; intros index st;
    cbn [each map snd state_then_invoke].
  - exists []. reflexivity.
  - destruct (step_shape E img options ls length index action r st)
      as [Hm _].
    destruct (step E img options ls length index (action, r) st)
      as [[log1 st1] c1].
    cbn [fst snd] in Hm.
    destruct c1; cbn [fst].
    + eexists. rewrite Hm. reflexivity.
    + destruct (IH (S index) st1) as [tail Htail].
      destruct (each E img options ls length (S index) rest st1)
        as [[log2 st2] c2].
      cbn [fst] in *. exists tail.
      rewrite filter_app, Hm, Htail. reflexivity.
    + eexists. rewrite Hm. reflexivity.
Qed.

Lemma chain_milestones_prefix (E : env) (img : string)
    (operations : list ref) (options : Js.object) (st : store)
    (ls : listeners) :
  let ops :=
    filterWhenMatches (fun r => when (st r)) operations (Some options) in
  exists rest,
    state_then_invoke (List.length ops) 0 ops
    = filter milestone (log (chain E img operations options st ls)) ++ rest.
Proof.
  intros ops. unfold chain. fold ops.
  destruct (run_all E st ops) as [e|promises] eqn:Hrun.
  - cbn [log]. rewrite milestone_emit. eexists. reflexivity.
  - destruct (each_milestones_prefix E img options ls (List.length ops)
                promises 0 st) as [rest Hrest].
    rewrite (run_all_refs _ _ _ _ Hrun) in Hrest.
    destruct (each _ _ _ _ _ _ _ _) as [[steps st'] c].
    cbn [fst] in Hrest.
    destruct c; cbn [log]; rewrite ?filter_app, ?milestone_emit, ?app_nil_r;
      exists rest; exact Hrest.
Qed.

(** C3: in a run with [N] filtered operations (an array: [N < 2^32]),
    the [state] events come in step order and the one of step [i] carries
    [getOperationProgress i N].  That percentage is a decimal with one
    fractional digit, no further than half a tenth from
    [100 * (i + 1) / N]; it does not decrease from a step to a later one;
    and at the last step it is exactly 100. *)
Theorem state_percentage_rounds_grows_and_ends_at_100 :
  forall (E : env) (img : string) (operations : list ref)
         (options : option Js.object) (st : store) (ls : listeners)
         (r : result),
    execute E img operations options st ls = inr r ->
    let ops := filtered E operations options st in
    let N := List.length ops in
    (Z.of_nat N < 2 ^ 32)%Z ->
    (exists rest,
        state_then_invoke N 0 ops = filter milestone (log r) ++ rest)
    /\ forall index, (index < N)%nat ->
         exists n,
           getOperationProgress index N = Number.Tenths n
           /\ nearest_tenth n (100 * (Z.of_nat index + 1)) (Z.of_nat N)
           /\ (forall later, (index <= later < N)%nat ->
                 exists n',
                   getOperationProgress later N = Number.Tenths n'
                   /\ (n <= n')%Z)
           /\ (index = (N - 1)%nat -> n = 1000%Z).
Proof.
  intros E img operations options st ls r Hex ops N HN.
  apply execute_chain in Hex. subst r. split.
  - apply chain_milestones_prefix.
  - intros index Hi.
    destruct (progress_value index N Hi HN) as (n & x & Hn & _).
    exists n. split; [exact Hn|]. split; [|split].
    + unfold nearest_tenth.
      replace (20 * (100 * (Z.of_nat index + 1)))%Z
        with (2000 * (Z.of_nat index + 1))%Z by lia.
      now apply progress_nearest_tenth.
    + intros later Hl.
      destruct (progress_value later N (proj2 Hl) HN) as (n' & x' & Hn' & _).
      exists n'. split; [exact Hn'|].
      now apply (progress_monotone index later N).
    + intros ->. rewrite progress_last in Hn by lia. now injection Hn as <-.
Qed.

Lemma state_percentage_rounds_grows_and_ends_at_100_witness :
  exists n,
    getOperationProgress 1 3 = Number.Tenths n
    /\ nearest_tenth n (100 * (Z.of_nat 1 + 1)) (Z.of_nat 3)
    /\ (forall later, (1 <= later < 3)%nat ->
          exists n',
            getOperationProgress later 3 = Number.Tenths n' /\ (n <= n')%Z)
    /\ (1%nat = (3 - 1)%nat -> n = 1000%Z).
Proof.
  apply (proj2 (state_percentage_rounds_grows_and_ends_at_100
                  example_env "img" [0; 1; 2]
                  (Some [("drive", VStr "/dev/disk2")]) example_store [] _
                  eq_refl eq_refl) 1%nat).
  repeat constructor.
Defined.

(** With fewer than a thousand steps the percentage grows at every
    step. *)
Lemma progress_strict_below_1000 (index later length : nat) (n n' : Z) :
  (index < later < length)%nat -> (length < 1000)%nat ->
  getOperationProgress index length = Number.Tenths n ->
  getOperationProgress later length = Number.Tenths n' ->
  (n < n')%Z.
Proof.
  intros [Hlt Hl] HN Hp Hp'.
  assert (H32 : (Z.of_nat length < 2 ^ 32)%Z).
  { change (2 ^ 32)%Z with 4294967296%Z. lia. }
  pose proof (progress_nearest_tenth index length n ltac:(lia) H32 Hp) as H1.
  pose proof (progress_nearest_tenth later length n' Hl H32 Hp') as H2.
  destruct (Z.lt_ge_cases n n') as [|Hge]; [assumption|exfalso].
  assert (Hmul : (n' * Z.of_nat length <= n * Z.of_nat length)%Z)
    by (apply Z.mul_le_mono_nonneg_r; lia).
  lia.
Qed.

(** At a tie [toFixed] rounds the number computed, which may fall short
    of the exact quotient: the 23rd of 80 steps is at 28.75 percent and
    is reported as 28.7. *)
Remark progress_at_a_tie :
  getOperationProgress 22 80 = Number.Tenths 287.
Proof. reflexivity. Qed.

(** With more than a thousand steps, consecutive steps can report the
    same percentage. *)
Remark progress_can_stall :
  getOperationProgress 0 4999 = getOperationProgress 1 4999.
Proof. reflexivity. Qed.

End Percentages.

(** ** The theorems at the concrete run *)

Section Concrete.
Import Js Utils Commands Action Operations Spec.

Lemma execute_emits_state_per_operation_then_end_witness :
  exists r body,
    execute example_env "img" [0; 1] None example_store [("end", 7)] = inr r
    /\ filter milestone (log r) = state_then_invoke 2 0 [0; 1]
    /\ emitted (log r) = body ++ [EvEnd]
    /\ forallb (fun ev => is_state ev || is_output ev) body = true
    /\ filter is_end (emitted (log r)) = [EvEnd]
    /\ filter is_error (emitted (log r)) = []
    /\ ([0; 1] = [] -> emitted (log r) = [EvEnd]).
Proof.
  apply (execute_emits_state_per_operation_then_end
           example_env "img" [0; 1] None example_store [("end", 7)]).
  - intros r [<-|[<-|[]]]; reflexivity.
  - vm_compute. auto.
Defined.

Lemma late_end_subscriber_called_only_after_success_witness :
  on (the_emitter (chain example_env "img" [0; 1]
                         (effective_options example_env None)
                         example_store []))
     "end" 7
  = (the_emitter (chain example_env "img" [0; 1]
                        (effective_options example_env None)
                        example_store []),
     [Call 7 EvEnd]).
Proof.
  apply (proj1 (late_end_subscriber_called_only_after_success
                  example_env "img" [0; 1] None example_store [] _ 7
                  eq_refl (fun event H => H))).
  reflexivity.
Defined.

Lemma burn_without_drive_fails_before_io_witness :
  exists o',
    burn example_env 0 "img" (blank "burn") (Some [("os", VStr "osx")])
    = (o', [], Rejects (JsError "Missing drive option")).
Proof.
  apply (burn_without_drive_fails_before_io
           example_env 0 "img" (blank "burn") (Some [("os", VStr "osx")])).
  reflexivity.
Defined.

Lemma run_script_spawns_the_joined_path_witness :
  exists o' calls out,
    run_script example_env 0 "img" (example_store 1) = (o', calls, out)
    /\ script o' = Some "img/setup.sh"
    /\ arguments o' = Some []
    /\ (forall path a, In (Spawn path a) calls ->
                       path = "img/setup.sh" /\ a = [])
    /\ calls = [Chmod "img/setup.sh" 755; Spawn "img/setup.sh" []]
       /\ out = Fulfilled [SigStdout "ready"; SigClose (Some 0%Z)].
Proof.
  apply (run_script_spawns_the_joined_path
           example_env 0 "img" (example_store 1) "setup.sh").
  reflexivity.
Defined.

End Concrete.

(** * Further properties of the code *)

(** ** Completion of a handle, once more *)

Section StreamsMore.
Import Js Utils Spec.

Lemma on_close_settles (code : option Z) : on_close code <> Pending.
Proof.
  unfold on_close. destruct code as [c|]; [|discriminate].
  destruct (negb (c =? 0)%Z); discriminate.
Qed.

(** X1: a completion settles once: after the signal that settled it, no
    later signal of the handle changes it. *)
Theorem waitStreamToClose_settles_once :
  forall (stream later : list signal),
    waitStreamToClose stream <> Pending ->
    waitStreamToClose (stream ++ later) = waitStreamToClose stream.
Proof.
  induction stream as [|s stream IH]; intros later H; simpl in *.
  - contradiction.
  - destruct s; auto.
Qed.

Lemma waitStreamToClose_settles_once_witness :
  waitStreamToClose ([SigStdout "out"; SigClose (Some 2%Z)]
                       ++ [SigEnd; SigError TypeError])
  = waitStreamToClose [SigStdout "out"; SigClose (Some 2%Z)].
Proof.
  apply (waitStreamToClose_settles_once
           [SigStdout "out"; SigClose (Some 2%Z)] [SigEnd; SigError TypeError]).
  discriminate.
Defined.

(** X2: a completion stays pending exactly when the handle emits none of
    [error], [end], [done] and [close]: whatever output or progress it
    gives, the step never ends. *)
Theorem waitStreamToClose_pending_iff_unheard :
  forall stream : list signal,
    waitStreamToClose stream = Pending <-> forallb unheard stream = true.
Proof.
  induction stream as [|s stream IH]; simpl.
  - split; reflexivity.
  - destruct s; simpl; try exact IH; try (split; discriminate).
    split; [|discriminate]. intros H. now apply on_close_settles in H.
Qed.

End StreamsMore.

(** ** Matching, once more *)

Section MatchingMore.
Import Js Utils Operations Spec.

Lemma get_In (o : Js.object) (k : string) (v : value) :
  get o k = Some v -> In (k, v) o.
Proof.
  induction o as [|[k' v'] o IH]; simpl; [discriminate|].
  destruct (String.eqb_spec k' k) as [->|_].
  - intros [= ->]. now left.
  - intros H. right. now apply IH.
Qed.

(** X3: an object is a subset of itself. *)
Theorem isObjectSubset_reflexive :
  forall o : Js.object, wf o -> isObjectSubset (Some o) (Some o) = true.
Proof.
  intros o Hwf. apply isObjectSubset_spec. intros k v Hin.
  now apply wf_In_get.
Qed.

Lemma isObjectSubset_reflexive_witness :
  isObjectSubset (Some [("foo", VStr "bar"); ("bar", VNum 1)])
                 (Some [("foo", VStr "bar"); ("bar", VNum 1)]) = true.
Proof.
  apply (isObjectSubset_reflexive [("foo", VStr "bar"); ("bar", VNum 1)]).
  unfold wf. simpl. repeat constructor; simpl; intuition discriminate.
Defined.

(** X4: subsets compose: a subset of a subset of an object is a subset of
    the object. *)
Theorem isObjectSubset_transitive :
  forall (a b : Js.object) (c : option Js.object),
    isObjectSubset (Some a) (Some b) = true ->
    isObjectSubset (Some b) c = true ->
    isObjectSubset (Some a) c = true.
Proof.
  intros a b c Hab Hbc. rewrite isObjectSubset_spec in *.
  intros k v Hin. apply (Hab k v). simpl. apply get_In. now apply Hbc.
Qed.

Lemma isObjectSubset_transitive_witness :
  isObjectSubset (Some [("foo", VStr "bar"); ("bar", VNum 1); ("baz", VNum 2)])
                 (Some [("bar", VNum 1)]) = true.
Proof.
  apply (isObjectSubset_transitive
           [("foo", VStr "bar"); ("bar", VNum 1); ("baz", VNum 2)]
           [("bar", VNum 1); ("foo", VStr "bar")]
           (Some [("bar", VNum 1)])); reflexivity.
Defined.

(** X5: options that keep every value they had keep every operation that
    was kept: supplying more options only adds operations. *)
Theorem filterWhenMatches_grows_with_options :
  forall (A : Type) (when_of : A -> option Js.object) (operations : list A)
         (options options' : option Js.object),
    (forall k v, get (or_empty options) k = Some v ->
                 get (or_empty options') k = Some v) ->
    forall op, In op (filterWhenMatches when_of operations options) ->
               In op (filterWhenMatches when_of operations options').
Proof.
  intros A when_of operations options options' Hext op.
  unfold filterWhenMatches. rewrite !filter_In, !isObjectSubset_spec.
  intros [Hin Hsub]. split; [assumption|].
  intros k v Hkv. apply Hext. now apply Hsub.
Qed.

Lemma filterWhenMatches_grows_with_options_witness :
  In 0 (filterWhenMatches (fun r => Commands.when (example_store r)) [0; 4]
          (Some [("processorType", VStr "Z7010")])).
Proof.
  apply (filterWhenMatches_grows_with_options nat
           (fun r => Commands.when (example_store r)) [0; 4]
           None (Some [("processorType", VStr "Z7010")])).
  - intros k v H. discriminate H.
  - simpl. left. reflexivity.
Defined.

(** X6: the operations [filterWhenMatches] keeps name no option that is
    missing: on its result [getMissingOptions] finds nothing. *)
Theorem kept_operations_miss_no_option :
  forall (A : Type) (when_of : A -> option Js.object) (operations : list A)
         (options : option Js.object),
    getMissingOptions when_of
      (filterWhenMatches when_of operations options) options = [].
Proof.
  intros A when_of operations options.
  rewrite getMissingOptions_spec.
  destruct (missingOptions _ _) as [|k l] eqn:Hm; [reflexivity|exfalso].
  assert (Hk : In k (missingOptions
                       (map when_of
                            (filterWhenMatches when_of operations options))
                       (or_empty options))) by (rewrite Hm; now left).
  apply missingOptions_In in Hk as [[op [Hop Hkey]] Hnot].
  apply Hnot. unfold filterWhenMatches in Hop.
  apply filter_In in Hop as [_ Hsub]. apply isObjectSubset_spec in Hsub.
  destruct (when_of op) as [w|]; [|contradiction].
  simpl in Hkey. unfold Js.keys in Hkey.
  apply in_map_iff in Hkey as [[k' v] [<- Hkv]].
  apply (get_Some_keys _ _ v). now apply Hsub.
Qed.

End MatchingMore.

(** ** Missing options, once more *)

Section MissingMore.
Import Js Utils Operations Spec.

Lemma first_seen_app (l l' : list string) :
  first_seen (l ++ l')
  = first_seen l ++ filter (fun y => negb (Lodash.mem y l)) (first_seen l').
Proof.
  induction l as [|x l IH]; simpl.
  - induction (first_seen l') as [|y r IHr]; simpl; [reflexivity|].
    now rewrite <- IHr.
  - f_equal. rewrite IH, filter_app, filter_filter. f_equal.
    apply filter_ext. intros y. rewrite String.eqb_sym.
    destruct (String.eqb x y); simpl; [now rewrite andb_false_r|].
    now rewrite andb_true_r.
Qed.

(** X7: the missing options of two lists of operations put end to end
    are those of the first, then those of the second that the first does
    not miss already. *)
Theorem getMissingOptions_of_appended_operations :
  forall (A : Type) (when_of : A -> option Js.object)
         (operations operations' : list A) (options : option Js.object),
    getMissingOptions when_of (operations ++ operations') options
    = getMissingOptions when_of operations options
      ++ filter (fun k => negb (Lodash.mem k
                                  (getMissingOptions when_of operations options)))
                (getMissingOptions when_of operations' options).
Proof.
  intros A when_of operations operations' options.
  rewrite !getMissingOptions_spec. unfold missingOptions.
  rewrite !map_app, concat_app, first_seen_app, filter_app. f_equal.
  rewrite !filter_filter. apply filter_ext_in. intros y _.
  set (p := negb (Lodash.mem y (Js.keys (or_empty options)))).
  set (U := List.concat (map Lodash.keys (map when_of operations))).
  destruct p eqn:Hp; [|now rewrite andb_false_r].
  rewrite andb_true_r. simpl. f_equal.
  destruct (Lodash.mem y U) eqn:HU.
  - apply (proj1 (mem_In _ _)) in HU. symmetry. apply (proj2 (mem_In _ _)).
    apply filter_In. split; [now apply (proj2 (first_seen_In _ _)) | exact Hp].
  - symmetry. apply not_true_iff_false. intros H.
    apply (proj1 (mem_In _ _)) in H.
    apply filter_In in H as [H _]. apply (proj1 (first_seen_In _ _)) in H.
    apply (proj2 (mem_In _ _)) in H. rewrite HU in H. discriminate H.
Qed.

(** X8: once options name every option that was missing, beside the
    options there were, nothing is missing. *)
Theorem getMissingOptions_none_once_supplied :
  forall (A : Type) (when_of : A -> option Js.object) (operations : list A)
         (options options' : option Js.object),
    (forall k, In k (Js.keys (or_empty options)) ->
               In k (Js.keys (or_empty options'))) ->
    (forall k, In k (getMissingOptions when_of operations options) ->
               In k (Js.keys (or_empty options'))) ->
    getMissingOptions when_of operations options' = [].
Proof.
  intros A when_of operations options options' Hold Hnew.
  rewrite getMissingOptions_spec.
  destruct (missingOptions _ _) as [|k l] eqn:Hm; [reflexivity|exfalso].
  assert (Hk : In k (missingOptions (map when_of operations)
                                    (or_empty options')))
    by (rewrite Hm; now left).
  apply (proj1 (missingOptions_In _ _ _ _)) in Hk as [Hused Hnot]. apply Hnot.
  destruct (in_dec string_dec k (Js.keys (or_empty options))) as [Hin|Hout].
  - now apply Hold.
  - apply Hnew. rewrite getMissingOptions_spec.
    apply (proj2 (missingOptions_In _ _ _ _)). now split.
Qed.

Lemma getMissingOptions_none_once_supplied_witness :
  getMissingOptions (fun r => Commands.when (example_store r)) [0; 4]
                    (Some [("processorType", VStr "Z7020")]) = [].
Proof.
  apply (getMissingOptions_none_once_supplied nat
           (fun r => Commands.when (example_store r)) [0; 4]
           None (Some [("processorType", VStr "Z7020")])).
  - intros k [].
  - intros k [<-|[]]. left. reflexivity.
Defined.

End MissingMore.

(** ** The options of a run *)

Section Options.
Import Js Utils Commands Action Operations Spec.

Lemma set_absent (o : Js.object) (k : string) (v : value) :
  get o k = None -> Js.set o k v = o ++ [(k, v)].
Proof.
  induction o as [|[k' v'] o IH]; simpl; [reflexivity|].
  destruct (String.eqb k' k); [discriminate|].
  intros H. now rewrite IH.
Qed.

Lemma get_app_present (o o' : Js.object) (k : string) (v : value) :
  get o k = Some v -> get (o ++ o') k = Some v.
Proof.
  induction o as [|[k' v'] o IH]; simpl; [discriminate|].
  destruct (String.eqb k' k); auto.
Qed.

Lemma get_app_absent (o o' : Js.object) (k : string) :
  get o k = None -> get (o ++ o') k = get o' k.
Proof.
  induction o as [|[k' v'] o IH]; simpl; [reflexivity|].
  destruct (String.eqb k' k); [discriminate | assumption].
Qed.

Lemma chain_options (E : env) (img : string) (operations : list ref)
    (options : Js.object) (st : store) (ls : listeners) :
  options_after (chain E img operations options st ls) = options.
Proof.
  unfold chain. destruct (run_all _ _ _); [reflexivity|].
  destruct (each _ _ _ _ _ _ _ _) as [[steps st'] c].
  destruct c; reflexivity.
Qed.

(** X9: [execute] leaves the caller's options as they are but for [os]:
    every option keeps its value and its place, an [os] that was given is
    kept, and an absent one is added last, with the platform's name, or
    [osx] when the platform is [darwin]. *)
Theorem execute_completes_the_options :
  forall (E : env) (img : string) (operations : list ref)
         (options : option Js.object) (st : store) (ls : listeners)
         (r : result),
    execute E img operations options st ls = inr r ->
    (forall k v, get (or_empty options) k = Some v ->
                 get (options_after r) k = Some v)
    /\ (forall v, get (or_empty options) "os" = Some v ->
                  options_after r = or_empty options)
    /\ (get (or_empty options) "os" = None ->
        options_after r
        = or_empty options ++ [("os", VStr (getOperatingSystem (platform E)))]
        /\ getOperatingSystem (platform E) <> "darwin"
        /\ (platform E <> "darwin" ->
            getOperatingSystem (platform E) = platform E)).
Proof.
  intros E img operations options st ls r Hex.
  apply execute_chain in Hex. subst r. rewrite chain_options.
  unfold effective_options.
  destruct (get (or_empty options) "os") as [os|] eqn:Hos.
  - split; [auto|]. split; [reflexivity|discriminate].
  - rewrite (set_absent _ _ _ Hos). split; [|split; [discriminate|]].
    + intros k v. apply get_app_present.
    + intros _. split; [reflexivity|]. unfold getOperatingSystem.
      destruct (String.eqb_spec (platform E) "darwin") as [->|Hne].
      * split; [discriminate | congruence].
      * split; [assumption | reflexivity].
Qed.

Lemma execute_completes_the_options_witness :
  get (options_after
         (chain example_env "img" [0]
                (effective_options example_env
                                   (Some [("drive", VStr "/dev/disk2")]))
                example_store []))
      "drive"
  = Some (VStr "/dev/disk2").
Proof.
  apply (proj1 (execute_completes_the_options
                  example_env "img" [0] (Some [("drive", VStr "/dev/disk2")])
                  example_store [] _ eq_refl)).
  reflexivity.
Defined.

End Options.

(** ** The anatomy of a run *)

Section Anatomy.
Import Js Utils Commands Action Operations Spec Behaviour.

Lemma invoked_app (l1 l2 : list entry) :
  invoked (l1 ++ l2) = invoked l1 ++ invoked l2.
Proof. apply flat_map_app. Qed.

Lemma io_calls_app (l1 l2 : list entry) :
  io_calls (l1 ++ l2) = io_calls l1 ++ io_calls l2.
Proof. apply flat_map_app. Qed.

Lemma invoked_emit (ls : listeners) (ev : event) : invoked (emit ls ev) = [].
Proof.
  unfold emit. simpl. induction (filter _ ls) as [|l rest IH]; simpl; auto.
Qed.

Lemma io_calls_emit (ls : listeners) (ev : event) : io_calls (emit ls ev) = [].
Proof.
  unfold emit. simpl. induction (filter _ ls) as [|l rest IH]; simpl; auto.
Qed.

Lemma invoked_IO (calls : list io) : invoked (map IO calls) = [].
Proof. induction calls; simpl; auto. Qed.

Lemma io_calls_IO (calls : list io) : io_calls (map IO calls) = calls.
Proof. induction calls; simpl; congruence. Qed.

Lemma invoked_straggle (handle : list signal) :
  invoked (straggle handle) = [].
Proof. induction handle as [|[] rest IH]; cbn; auto. Qed.

Lemma io_calls_straggle (handle : list signal) :
  io_calls (straggle handle) = [].
Proof. induction handle as [|[] rest IH]; cbn; auto. Qed.

Lemma invoked_republish (ls : listeners) (handle : list signal) :
  invoked (republish ls handle) = [].
Proof.
  induction handle as [|s rest IH]; [reflexivity|].
  destruct s; cbn [republish]; try apply invoked_straggle; try exact IH;
    rewrite invoked_app, invoked_emit, IH; reflexivity.
Qed.

Lemma io_calls_republish (ls : listeners) (handle : list signal) :
  io_calls (republish ls handle) = [].
Proof.
  induction handle as [|s rest IH]; [reflexivity|].
  destruct s; cbn [republish]; try apply io_calls_straggle; try exact IH;
    rewrite io_calls_app, io_calls_emit, IH; reflexivity.
Qed.

Lemma step_invoked (E : env) (img : string) (options : Js.object)
    (ls : listeners) (length index : nat) (action : member) (r : ref)
    (st : store) :
  invoked (fst (fst (step E img options ls length index (action, r) st)))
  = [r].
Proof.
  rewrite step_log, invoked_app, invoked_emit. cbn [app].
  change (invoked (Invoke r :: ?l)) with (r :: invoked l).
  rewrite invoked_app, invoked_IO.
  destruct (snd _); [rewrite invoked_republish|]; reflexivity.
Qed.

Lemma step_io_calls (E : env) (img : string) (options : Js.object)
    (ls : listeners) (length index : nat) (action : member) (r : ref)
    (st : store) :
  io_calls (fst (fst (step E img options ls length index (action, r) st)))
  = snd (fst (invoke E index img options action (st r) (descriptor_of st))).
Proof.
  rewrite step_log, io_calls_app, io_calls_emit. cbn [app].
  change (io_calls (Invoke r :: ?l)) with (io_calls l).
  rewrite io_calls_app, io_calls_IO.
  destruct (snd (invoke E index img options action (st r) (descriptor_of st)));
    [rewrite io_calls_republish|]; apply app_nil_r.
Qed.

Lemma step_completion (E : env) (img : string) (options : Js.object)
    (ls : listeners) (length index : nat) (action : member) (r : ref)
    (st : store) :
  snd (step E img options ls length index (action, r) st)
  = match snd (invoke E index img options action (st r) (descriptor_of st)) with
    | Fulfilled handle => waitStreamToClose handle
    | Rejects e => Rejected e
    end.
Proof.
  unfold step.
  destruct (invoke E index img options action (st r) (descriptor_of st)) as [[o calls] out].
  destruct out; reflexivity.
Qed.

Lemma each_anatomy (E : env) (img : string) (options : Js.object)
    (ls : listeners) (length : nat) (promises : list (member * ref)) :
  forall index (st : store),
    let result := each E img options ls length index promises st in
    exists rest,
      map snd promises = invoked (fst (fst result)) ++ rest
      /\ (snd result = Resolved -> rest = [])
      /\ filter milestone (fst (fst result))
         = state_then_invoke length index (invoked (fst (fst result)))
      /\ (forall x, ~ In x (invoked (fst (fst result))) ->
                    snd (fst result) x = st x).
Proof.
  induction promises as [|[action r] rest IH]; intros index st; cbn [each].
  - exists []. cbn. auto.
  - destruct (step_shape E img options ls length index action r st)
      as [Hm _].
    pose proof (step_invoked E img options ls length index action r st)
      as Hi.
    pose proof (step_store E img options ls length index action r st)
      as Hst.
    destruct (step E img options ls length index (action, r) st)
      as [[log1 st1] c1].
    cbn [fst snd] in Hm, Hi, Hst.
    assert (Hframe : forall x, ~ In x [r] -> st1 x = st x).
    { intros x Hx. rewrite Hst. unfold update. cbn [record_of].
      destruct (Nat.eqb_spec r x) as [->|_]; [|reflexivity].
      exfalso. apply Hx. now left. }
    destruct c1; cbn [fst snd map].
    + exists (map snd rest). rewrite Hi, Hm. repeat split; auto.
      discriminate.
    + specialize (IH (S index) st1). cbn zeta in IH.
      destruct (each E img options ls length (S index) rest st1)
        as [[log2 st2] c2].
      cbn [fst snd] in IH |- *.
      destruct IH as (tail & Hrefs & Hres & Hm2 & Hfr).
      exists tail. rewrite invoked_app, Hi, filter_app, Hm, Hm2, Hrefs.
      repeat split; auto.
      intros x Hx. rewrite Hfr.
      * apply Hframe. intros [<-|[]]. apply Hx. now left.
      * intros Hin. apply Hx. now right.
    + exists (map snd rest). rewrite Hi, Hm. repeat split; auto.
      discriminate.
Qed.

Lemma late_app (l1 l2 : list entry) : late_output (l1 ++ l2) = late_output l1 ++ late_output l2.
Proof. apply flat_map_app. Qed.

Lemma late_emit (ls : listeners) (ev : event) : late_output (emit ls ev) = [].
Proof.
  unfold emit. simpl. induction (filter _ ls) as [|l rest IH]; simpl; auto.
Qed.

Lemma late_IO (calls : list io) : late_output (map IO calls) = [].
Proof. induction calls; simpl; auto. Qed.

Lemma late_straggle (handle : list signal) :
  late_output (straggle handle) = flat_map event_of handle.
Proof.
  unfold late_output. induction handle as [|[] rest IH]; cbn in *; congruence.
Qed.








(** A writer that reports progress after it has failed: the run emits the
    [state] event and the [error] event, and the progress is re-emitted as
    a [burn] event later. *)
Remark output_after_the_error :
  let E := {| platform := "linux";
              path_join := fun a b => (a ++ "/" ++ b)%string;
              object_prototype := fun _ => None;
              imagefs_copy := fun _ _ _ => Fulfilled [SigEnd];
              imagefs_replace := fun _ _ _ _ => Fulfilled [SigEnd];
              fs_chmod := fun _ _ _ => None;
              child_process_spawn := fun _ _ _ => Fulfilled [SigEnd];
              fs_stat := fun _ _ => inr 1024%Z;
              fs_createReadStream := fun _ _ => None;
              imageWrite_write :=
                fun _ _ _ _ =>
                  Fulfilled [SigError (Failure "EIO"); SigProgress "60"] |} in
  let r := chain E "img" [2]
                 (effective_options E (Some [("drive", VStr "/dev/disk2")]))
                 example_store [] in
  emitted (log r)
  = [EvState 2 (getOperationProgress 0 1); EvError (Failure "EIO")]
  /\ late_output (log r) = [EvBurn "60"].
Proof. split; reflexivity. Qed.

(** X11: the operations a run invokes are a beginning of the filtered
    list, in its order, and all of it when the run succeeds; each
    invocation directly follows the [state] event of that operation, with
    the percentage of its position, whether the run succeeds or not; and
    what is invoked is an operation of the caller whose [when] the
    options match. *)
Theorem invocations_begin_the_filtered_list :
  forall (E : env) (img : string) (operations : list ref)
         (options : option Js.object) (st : store) (ls : listeners)
         (r : result),
    execute E img operations options st ls = inr r ->
    let ops := filtered E operations options st in
    (exists rest,
        ops = invoked (log r) ++ rest
        /\ (final r = Succeeded -> rest = []))
    /\ filter milestone (log r)
       = state_then_invoke (List.length ops) 0 (invoked (log r))
    /\ (forall x, In x (invoked (log r)) ->
          In x operations
          /\ isObjectSubset (Some (options_after r)) (when (st x)) = true).
Proof.
  intros E img operations options st ls r Hex ops.
  apply execute_chain in Hex.
  assert (Hopt : options_after r = effective_options E options)
    by (subst r; apply chain_options).
  assert (Hmain : (exists rest,
                      ops = invoked (log r) ++ rest
                      /\ (final r = Succeeded -> rest = []))
                  /\ filter milestone (log r)
                     = state_then_invoke (List.length ops) 0
                                         (invoked (log r))).
  { subst r. unfold chain. fold (filtered E operations options st).
    fold ops.
    destruct (run_all E st ops) as [e|promises] eqn:Hrun.
    - cbn [log final]. rewrite invoked_emit, milestone_emit. split.
      + exists ops. split; [reflexivity|discriminate].
      + reflexivity.
    - destruct (each_anatomy E img (effective_options E options) ls
                  (List.length ops) promises 0 st)
        as (rest & Hrefs & Hres & Hm & _).
      rewrite (run_all_refs _ _ _ _ Hrun) in Hrefs.
      destruct (each _ _ _ _ _ _ _ _) as [[steps st'] c].
      cbn [fst snd] in Hrefs, Hres, Hm.
      destruct c; cbn [log final];
        rewrite ?invoked_app, ?invoked_emit, ?filter_app, ?milestone_emit,
          ?app_nil_r; cbn [is_state];
        rewrite ?app_nil_r; (split; [exists rest; split|]); auto;
        discriminate. }
  destruct Hmain as [[rest [Hrest Hsucc]] Hm].
  split; [exists rest; auto|]. split; [exact Hm|].
  intros x Hx. rewrite Hopt.
  assert (Hin : In x ops) by (rewrite Hrest; apply in_or_app; now left).
  unfold ops, filtered, filterWhenMatches in Hin.
  apply filter_In in Hin. exact Hin.
Qed.

Lemma invocations_begin_the_filtered_list_witness :
  filter milestone
    (log (chain example_env "img" [0; 4; 1]
                (effective_options example_env
                                   (Some [("processorType", VStr "Z7020")]))
                example_store [("state", 7)]))
  = state_then_invoke 2 0 [0; 1].
Proof.
  apply (proj1 (proj2 (invocations_begin_the_filtered_list
                         example_env "img" [0; 4; 1]
                         (Some [("processorType", VStr "Z7020")])
                         example_store [("state", 7)] _ eq_refl))).
Defined.



End Anatomy.

(** ** Listeners *)

Section Listening.
Import Js Utils Commands Action Operations Spec Behaviour.













End Listening.

(** ** The calls a run makes *)

Section Calls.
Import Js Utils Commands Action Operations Spec Behaviour.

Variable E : env.
Variable img : string.

(** The calls of a log, by the invocation that makes them. *)
Lemma each_io_calls (options : Js.object) (ls : listeners) (length : nat)
    (promises : list (member * ref)) :
  forall index (st : store),
  exists chunks,
    io_calls (fst (fst (each E img options ls length index promises st)))
    = List.concat chunks
    /\ Forall (fun chunk =>
                 exists i action o h,
                   chunk = snd (fst (invoke E i img options action o h)))
              chunks.
Proof.
  induction promises as [|[action r] rest IH]; intros index st; cbn [each].
  - exists []. split; [reflexivity | constructor].
  - pose proof (step_io_calls E img options ls length index action r st)
      as Hio.
    destruct (step E img options ls length index (action, r) st)
      as [[log1 st1] c1].
    cbn [fst] in Hio.
    assert (Hone : Forall (fun chunk =>
                             exists i action o h,
                               chunk
                               = snd (fst (invoke E i img options action
                                                  o h)))
                          [io_calls log1]).
    { constructor; [|constructor]. rewrite Hio. eauto. }
    destruct c1; cbn [fst].
    + exists [io_calls log1]. cbn [List.concat]. now rewrite app_nil_r.
    + destruct (IH (S index) st1) as (chunks & Hc & Hall).
      destruct (each E img options ls length (S index) rest st1)
        as [[log2 st2] c2].
      cbn [fst] in *. exists (io_calls log1 :: chunks).
      cbn [List.concat]. rewrite io_calls_app, Hc. split; [reflexivity|].
      constructor; [|assumption]. rewrite Hio. eauto.
    + exists [io_calls log1]. cbn [List.concat]. now rewrite app_nil_r.
Qed.

Lemma chain_io_calls (operations : list ref) (options : Js.object)
    (st : store) (ls : listeners) :
  exists chunks,
    io_calls (log (chain E img operations options st ls))
    = List.concat chunks
    /\ Forall (fun chunk =>
                 exists i action o h,
                   chunk = snd (fst (invoke E i img options action o h)))
              chunks.
Proof.
  unfold chain. destruct (run_all _ _ _) as [e|promises].
  - exists []. cbn [log]. rewrite io_calls_emit.
    split; [reflexivity | constructor].
  - destruct (each_io_calls options ls
                (List.length
                   (filterWhenMatches (fun r => when (st r)) operations
                      (Some options))) promises 0 st)
      as (chunks & Hc & Hall).
    destruct (each _ _ _ _ _ _ _ _) as [[steps st'] c].
    cbn [fst] in Hc. exists chunks.
    destruct c; cbn [log];
      rewrite ?io_calls_app, ?io_calls_emit, ?app_nil_r; auto.
Qed.

(** A call of a run is a call of some invocation, and stands in the run
    among the calls of that invocation. *)
Lemma chain_call_inv (operations : list ref) (options : Js.object)
    (st : store) (ls : listeners) (c : io) :
  In c (io_calls (log (chain E img operations options st ls))) ->
  exists i action o h before after,
    In c (snd (fst (invoke E i img options action o h)))
    /\ io_calls (log (chain E img operations options st ls))
       = before ++ snd (fst (invoke E i img options action o h)) ++ after.
Proof.
  destruct (chain_io_calls operations options st ls) as (chunks & -> & Hall).
  intros Hin. apply in_concat in Hin as (chunk & Hchunk & Hc).
  destruct (in_split _ _ Hchunk) as (l1 & l2 & ->).
  rewrite Forall_forall in Hall.
  destruct (Hall chunk Hchunk) as (i & action & o & h & ->).
  exists i, action, o, h, (List.concat l1), (List.concat l2).
  split; [assumption|]. rewrite concat_app. reflexivity.
Qed.

(** The calls of an invocation, handler by handler. *)
Lemma invoke_calls (index : nat) (options : Js.object) (action : member)
    (o : operation) (h : heap) :
  snd (fst (invoke E index img options action o h))
  = match action with
    | Own Copy => snd (fst (copy E index img o h))
    | Own Replace => snd (fst (replace_ E index img o h))
    | Own RunScript => snd (fst (run_script E index img o))
    | Own Burn => snd (fst (burn E index img o (Some options)))
    | Inherited _ => []
    end.
Proof.
  destruct action as [[]|callable]; cbn [invoke]; try reflexivity.
  - destruct (copy E index img o h) as [[h' calls] out]. reflexivity.
  - destruct (replace_ E index img o h) as [[h' calls] out]. reflexivity.
  - destruct (run_script E index img o) as [[o' calls] out]. reflexivity.
  - destruct (burn E index img o (Some options)) as [[o' calls] out].
    reflexivity.
Qed.

Lemma default_image_named (d : Descriptor.t) :
  Descriptor.image (Descriptor.default_image img d) <> None.
Proof.
  unfold Descriptor.default_image.
  destruct (Descriptor.image d) eqn:Hd; cbn; congruence.
Qed.

Lemma default_image_at_named (base : dref) (h : heap) :
  Descriptor.image (default_image_at img base h base) <> None.
Proof.
  unfold default_image_at. rewrite Nat.eqb_refl. apply default_image_named.
Qed.

(** An image that is set stays set. *)
Lemma default_image_at_keeps (base : dref) (h : heap) (d : dref) :
  Descriptor.image (h d) <> None ->
  Descriptor.image (default_image_at img base h d) <> None.
Proof.
  intros Hd. unfold default_image_at. destruct (Nat.eqb base d); [|exact Hd].
  apply default_image_named.
Qed.

(** The calls of [copy] and of [replace]. *)
Lemma copy_calls (index : nat) (o : operation) (h : heap) (c : io) :
  In c (snd (fst (copy E index img o h))) ->
  exists input output,
    c = ImagefsCopy input output
    /\ Descriptor.image input <> None /\ Descriptor.image output <> None.
Proof.
  unfold copy. destruct (from o) as [base|]; [|intros []].
  destruct (to o) as [base1|]; [|intros []].
  intros [<-|[]]. do 2 eexists. split; [reflexivity|]. split.
  - apply default_image_at_keeps, default_image_at_named.
  - apply default_image_at_named.
Qed.

Lemma replace_calls (index : nat) (o : operation) (h : heap) (c : io) :
  In c (snd (fst (replace_ E index img o h))) ->
  exists f, c = ImagefsReplace f (find o) (replace o)
            /\ Descriptor.image f <> None.
Proof.
  unfold replace_. destruct (file o) as [base|]; [|intros []].
  intros [<-|[]]. eexists. split; [reflexivity|].
  apply default_image_at_named.
Qed.

Lemma get_set_other (o : Js.object) (k k' : string) (v : value) :
  k <> k' -> get (Js.set o k v) k' = get o k'.
Proof.
  intros Hk. induction o as [|[k0 v0] o IH]; cbn [Js.set get].
  - destruct (String.eqb_spec k k'); [contradiction|reflexivity].
  - destruct (String.eqb_spec k0 k) as [->|Hne]; cbn [get].
    + destruct (String.eqb_spec k k'); [contradiction|reflexivity].
    + now rewrite IH.
Qed.

Lemma effective_options_other (options : option Js.object) (k : string) :
  k <> "os" -> get (effective_options E options) k = get (or_empty options) k.
Proof.
  intros Hk. unfold effective_options.
  destruct (get (or_empty options) "os"); [reflexivity|].
  apply get_set_other. congruence.
Qed.

End Calls.

Section CallsOfRun.
Import Js Utils Commands Action Operations Spec Behaviour.

(** X14: whatever a run asks of [resin-image-fs], every descriptor it
    hands over names an image. *)
Theorem imagefs_calls_name_their_image :
  forall (E : env) (img : string) (operations : list ref)
         (options : option Js.object) (st : store) (ls : listeners)
         (r : result) (c : io),
    execute E img operations options st ls = inr r ->
    In c (io_calls (log r)) ->
    carries_image c.
Proof.
  intros E img operations options st ls r c Hex Hin.
  apply execute_chain in Hex. subst r.
  apply (chain_call_inv E img operations (effective_options E options)
                         st ls) in Hin
    as (i & action & o & h & _ & _ & Hin & _).
  rewrite invoke_calls in Hin.
  destruct action as [[]|callable].
  - apply copy_calls in Hin as (input & output & -> & Hi & Ho). now split.
  - apply replace_calls in Hin as (f & -> & Hf). exact Hf.
  - unfold run_script in Hin. destruct (script o); [|destruct Hin].
    destruct (fs_chmod _ _ _ _); cbn [fst snd] in Hin;
      repeat (destruct Hin as [<-|Hin]; [exact I|]); destruct Hin.
  - unfold burn in Hin.
    destruct (get _ _); [|destruct Hin].
    destruct (fs_stat _ _ _); cbn [fst snd] in Hin;
      repeat (destruct Hin as [<-|Hin]; [exact I|]); destruct Hin.
  - destruct Hin.
Qed.

Lemma imagefs_calls_name_their_image_witness :
  carries_image
    (ImagefsCopy (Descriptor.default_image "img" boot_partition)
                 (Descriptor.default_image "img" boot_partition)).
Proof.
  apply (imagefs_calls_name_their_image
           example_env "img" [0] None example_store [] _ _ eq_refl).
  vm_compute. left. reflexivity.
Defined.

(** X15: a run writes to no drive but the one the options name, and
    every write directly follows an [fs.stat] and an
    [fs.createReadStream] of the path it writes from. *)
Theorem writes_go_to_the_drive_after_stat :
  forall (E : env) (img : string) (operations : list ref)
         (options : option Js.object) (st : store) (ls : listeners)
         (r : result) (drive : value) (path : string) (length : Z),
    execute E img operations options st ls = inr r ->
    In (ImageWrite drive path length) (io_calls (log r)) ->
    get (or_empty options) "drive" = Some drive
    /\ exists before after,
         io_calls (log r)
         = before
           ++ [Stat path; CreateReadStream path; ImageWrite drive path length]
           ++ after.
Proof.
  intros E img operations options st ls r drive path length Hex Hin.
  apply execute_chain in Hex. subst r.
  apply (chain_call_inv E img operations (effective_options E options)
                         st ls) in Hin
    as (i & action & o & h & before & after & Hin & ->).
  rewrite <- (effective_options_other E options "drive") by discriminate.
  rewrite invoke_calls in Hin |- *.
  destruct action as [[]|callable].
  - exfalso. apply copy_calls in Hin as (input & output & H & _).
    discriminate H.
  - exfalso. apply replace_calls in Hin as (f & H & _). discriminate H.
  - exfalso. unfold run_script in Hin. destruct (script o); [|destruct Hin].
    destruct (fs_chmod _ _ _ _); cbn [fst snd] in Hin;
      repeat (destruct Hin as [H|Hin]; [discriminate H|]); destruct Hin.
  - unfold burn in Hin |- *. cbn [or_empty] in Hin |- *.
    destruct (get (effective_options E options) "drive") as [d|];
      [|destruct Hin].
    destruct (fs_stat _ _ _); cbn [fst snd] in Hin |- *.
    + destruct Hin as [H|[]]. discriminate H.
    + destruct Hin as [H|[H|[H|[]]]]; try discriminate H.
      injection H as -> <- <-. split; [reflexivity|].
      exists before, after. reflexivity.
  - destruct Hin.
Qed.

Lemma writes_go_to_the_drive_after_stat_witness :
  get (or_empty (Some [("drive", VStr "/dev/disk2")])) "drive"
  = Some (VStr "/dev/disk2")
  /\ exists before after,
       io_calls
         (log (chain example_env "img" [0; 2]
                     (effective_options example_env
                        (Some [("drive", VStr "/dev/disk2")]))
                     example_store []))
       = before
         ++ [Stat "img"; CreateReadStream "img";
             ImageWrite (VStr "/dev/disk2") "img" 1024]
         ++ after.
Proof.
  apply (writes_go_to_the_drive_after_stat
           example_env "img" [0; 2] (Some [("drive", VStr "/dev/disk2")])
           example_store [] _ (VStr "/dev/disk2") "img" 1024%Z eq_refl).
  vm_compute. right. right. right. left. reflexivity.
Defined.

(** X16: a run spawns nothing but scripts under the image path, and each
    directly after making that very path executable. *)
Theorem spawns_follow_chmod_under_the_image :
  forall (E : env) (img : string) (operations : list ref)
         (options : option Js.object) (st : store) (ls : listeners)
         (r : result) (path : string) (args : list string),
    execute E img operations options st ls = inr r ->
    In (Spawn path args) (io_calls (log r)) ->
    (exists script, path = path_join E img script)
    /\ exists before after,
         io_calls (log r)
         = before ++ [Chmod path 755; Spawn path args] ++ after.
Proof.
  intros E img operations options st ls r path args Hex Hin.
  apply execute_chain in Hex. subst r.
  apply (chain_call_inv E img operations (effective_options E options)
                         st ls) in Hin
    as (i & action & o & h & before & after & Hin & ->).
  rewrite invoke_calls in Hin |- *.
  destruct action as [[]|callable].
  - exfalso. apply copy_calls in Hin as (input & output & H & _).
    discriminate H.
  - exfalso. apply replace_calls in Hin as (f & H & _). discriminate H.
  - unfold run_script in Hin |- *. destruct (script o) as [s|];
      [|destruct Hin].
    destruct (fs_chmod _ _ _ _); cbn [fst snd] in Hin |- *.
    + destruct Hin as [H|[]]. discriminate H.
    + destruct Hin as [H|[H|[]]]; [discriminate H|].
      injection H as <- <-. split; [now exists s|].
      exists before, after. reflexivity.
  - exfalso. unfold burn in Hin.
    destruct (get _ _); [|destruct Hin].
    destruct (fs_stat _ _ _); cbn [fst snd] in Hin;
      repeat (destruct Hin as [H|Hin]; [discriminate H|]); destruct Hin.
  - destruct Hin.
Qed.

Lemma spawns_follow_chmod_under_the_image_witness :
  (exists script, "img/setup.sh" = path_join example_env "img" script)
  /\ exists before after,
       io_calls
         (log (chain example_env "img" [0; 1]
                     (effective_options example_env None) example_store []))
       = before ++ [Chmod "img/setup.sh" 755; Spawn "img/setup.sh" []]
         ++ after.
Proof.
  apply (spawns_follow_chmod_under_the_image
           example_env "img" [0; 1] None example_store [] _
           "img/setup.sh" [] eq_refl).
  vm_compute. right. right. left. reflexivity.
Defined.

End CallsOfRun.

(** ** How a run ends *)

Section Outcome.
Import Js Utils Commands Action Operations Spec Behaviour.

Lemma chain_succeeded (E : env) (img : string) (operations : list ref)
    (options : Js.object) (st : store) (ls : listeners) :
  let ops :=
    filterWhenMatches (fun r => when (st r)) operations (Some options) in
  final (chain E img operations options st ls) = Succeeded
  <-> match run_all E st ops with
      | inl _ => False
      | inr promises =>
          snd (each E img options ls (List.length ops) 0 promises st)
          = Resolved
      end.
Proof.
  intros ops. unfold chain. fold ops.
  destruct (run_all E st ops) as [e|promises].
  - cbn. split; [discriminate | contradiction].
  - destruct (each _ _ _ _ _ _ _ _) as [[steps st'] c].
    destruct c; cbn; split; congruence.
Qed.

Lemma each_resolved_own (E : env) (img : string) (options : Js.object)
    (ls : listeners) (length : nat) (promises : list (member * ref)) :
  forall index (st : store),
    snd (each E img options ls length index promises st) = Resolved ->
    forall callable x, ~ In (Inherited callable, x) promises.
Proof.
  induction promises as [|[action r] rest IH]; intros index st;
    cbn [each]; [intros _ callable x []|].
  pose proof (step_completion E img options ls length index action r st)
    as Hc.
  destruct (step E img options ls length index (action, r) st)
    as [[log1 st1] c1].
  cbn [snd] in Hc.
  destruct c1; cbn [snd]; try discriminate.
  specialize (IH (S index) st1).
  destruct (each E img options ls length (S index) rest st1)
    as [[log2 st2] c2].
  cbn [snd] in *. intros Hres callable x [Heq|Hin].
  - injection Heq as -> ->. cbn [invoke snd] in Hc. discriminate Hc.
  - exact (IH Hres callable x Hin).
Qed.

(** X18: a command named after a property the registry inherits
    ([toString], [constructor], ...) is no command: a run with such an
    operation among the filtered ones never succeeds.  When the property
    is a function the operation is not reported as unknown; alone in the
    list, it has its [state] event emitted and is invoked, calls no
    collaborator, and fails the run with a type error. *)
Theorem inherited_property_is_no_command :
  forall (E : env) (img : string) (operations : list ref)
         (options : option Js.object) (st : store) (ls : listeners)
         (r : result) (x : ref) (callable : bool),
    execute E img operations options st ls = inr r ->
    In x (filtered E operations options st) ->
    commands E (command (st x)) = Some (Inherited callable) ->
    final r <> Succeeded
    /\ (callable = true -> filtered E operations options st = [x] ->
        final r = Failed TypeError
        /\ emitted (log r)
           = [EvState x (getOperationProgress 0 1); EvError TypeError]
        /\ invoked (log r) = [x]
        /\ io_calls (log r) = []).
Proof.
  intros E img operations options st ls r x callable Hex Hin Hcmd.
  apply execute_chain in Hex. subst r. split.
  - rewrite chain_succeeded. fold (filtered E operations options st).
    destruct (run_all E st (filtered E operations options st))
      as [e|promises] eqn:Hrun; [tauto|].
    intros Hres.
    apply (each_resolved_own _ _ _ _ _ _ _ _ Hres callable x).
    pose proof (run_all_refs _ _ _ _ Hrun) as Hrefs.
    rewrite <- Hrefs in Hin. apply in_map_iff in Hin as [[a y] [Hy Hin]].
    cbn [snd] in Hy. subst y.
    pose proof (run_all_commands E st _ promises Hrun a x Hin) as Ha.
    rewrite Hcmd in Ha. injection Ha as <-. exact Hin.
  - intros -> Hone. unfold chain.
    fold (filtered E operations options st). rewrite Hone.
    cbn [run_all]. unfold run. rewrite Hcmd.
    cbn [List.length each step invoke].
    cbn [log final]. rewrite !emitted_app, !invoked_app, !io_calls_app,
      !emitted_emit, !invoked_emit, !io_calls_emit.
    cbn. auto.
Qed.

Lemma inherited_property_is_no_command_witness :
  final (chain example_env "img" [5]
               (effective_options example_env None)
               {| record_of := fun _ => blank "toString";
                  descriptor_of := fun _ => boot_partition |} [])
  <> Succeeded.
Proof.
  apply (proj1 (inherited_property_is_no_command
                  example_env "img" [5] None
                  {| record_of := fun _ => blank "toString";
                     descriptor_of := fun _ => boot_partition |} []
                  _ 5 true eq_refl (or_introl eq_refl) eq_refl)).
Defined.

End Outcome.

(** ** Subscribing after the run *)

Section Late.
Import Js Utils Commands Action Operations Spec Behaviour.

Lemma subscribe_replays (subs : listeners) :
  forall em,
    on_patched em = true -> ended em = true ->
    snd (subscribe em subs)
    = map (fun s => Call (snd s) EvEnd) (filter to_end subs)
    /\ subscribed (fst (subscribe em subs))
       = subscribed em ++ filter (fun s => negb (to_end s)) subs.
Proof.
  induction subs as [|[event callback] rest IH]; intros em Hp He;
    cbn [subscribe].
  - cbn. now rewrite app_nil_r.
  - unfold on. rewrite Hp, He. cbn [andb filter].
    change (to_end (event, callback)) with (String.eqb event "end").
    rewrite andb_true_r.
    destruct (String.eqb event "end").
    + destruct (IH em Hp He) as [Hc Hs].
      destruct (subscribe em rest) as [em' calls]. cbn [fst snd] in *.
      cbn [negb]. now rewrite Hc, Hs.
    + set (em1 := {| subscribed := subscribed em ++ [(event, callback)];
                     ended := true; on_patched := true |}).
      destruct (IH em1 eq_refl eq_refl) as [Hc Hs].
      destruct (subscribe em1 rest) as [em' calls]. cbn [fst snd] in *.
      cbn [negb app]. rewrite Hc, Hs. cbn [subscribed em1].
      now rewrite <- app_assoc.
Qed.

Lemma subscribe_registers (subs : listeners) :
  forall em,
    ended em = false ->
    snd (subscribe em subs) = []
    /\ subscribed (fst (subscribe em subs)) = subscribed em ++ subs.
Proof.
  induction subs as [|[event callback] rest IH]; intros em He;
    cbn [subscribe].
  - cbn. now rewrite app_nil_r.
  - unfold on. rewrite He, !andb_false_r.
    set (em1 := {| subscribed := subscribed em ++ [(event, callback)];
                   ended := false; on_patched := on_patched em |}).
    destruct (IH em1 eq_refl) as [Hc Hs].
    destruct (subscribe em1 rest) as [em' calls]. cbn [fst snd] in *.
    rewrite Hc, Hs. cbn [subscribed em1 app].
    now rewrite <- app_assoc.
Qed.

(** X19: of the subscriptions made after a run has succeeded, every one
    to [end] has its callback called at once, each time it is made and in
    the order they are made, and is not registered; the others are
    registered and call nothing.  After a run that failed or never
    settles, every subscription is only registered. *)
Theorem late_subscriptions_replay_end_after_success :
  forall (E : env) (img : string) (operations : list ref)
         (options : option Js.object) (st : store) (ls : listeners)
         (r : result) (subs : listeners),
    execute E img operations options st ls = inr r ->
    let late := subscribe (the_emitter r) subs in
    (final r = Succeeded ->
       snd late = map (fun s => Call (snd s) EvEnd) (filter to_end subs)
       /\ subscribed (fst late)
          = ls ++ filter (fun s => negb (to_end s)) subs)
    /\ (final r <> Succeeded ->
          snd late = [] /\ subscribed (fst late) = ls ++ subs).
Proof.
  intros E img operations options st ls r subs Hex late. subst late.
  apply execute_chain in Hex. subst r. unfold chain.
  destruct (run_all _ _ _) as [e|promises].
  - cbn [final the_emitter]. split; [discriminate|]. intros _.
    apply (subscribe_registers subs
             {| subscribed := ls; ended := false; on_patched := false |}).
    reflexivity.
  - destruct (each _ _ _ _ _ _ _ _) as [[steps st'] c].
    destruct c; cbn [final the_emitter].
    + split; [discriminate|]. intros _.
      apply (subscribe_registers subs
               {| subscribed := ls; ended := false; on_patched := true |}).
      reflexivity.
    + split; [|congruence]. intros _.
      apply (subscribe_replays subs
               {| subscribed := ls; ended := true; on_patched := true |});
        reflexivity.
    + split; [discriminate|]. intros _.
      apply (subscribe_registers subs
               {| subscribed := ls; ended := false; on_patched := true |}).
      reflexivity.
Qed.

Lemma late_subscriptions_replay_end_after_success_witness :
  snd (subscribe
         (the_emitter
            (chain example_env "img" [0]
                   (effective_options example_env None) example_store []))
         [("end", 1); ("state", 2); ("end", 1)])
  = [Call 1 EvEnd; Call 1 EvEnd].
Proof.
  apply (proj1 (late_subscriptions_replay_end_after_success
                  example_env "img" [0] None example_store [] _
                  [("end", 1); ("state", 2); ("end", 1)] eq_refl)).
  reflexivity.
Defined.

End Late.

(** ** The operating system among the options *)

Section Platform.
Import Js Utils Commands Action Operations Spec Behaviour.

(** X20: when the caller names no [os], an operation that applies to one
    operating system only is run exactly on that system, as
    [getOperatingSystem] names it: [osx] on [darwin], the platform's own
    name elsewhere. *)
Theorem absent_os_is_read_from_the_platform :
  forall (E : env) (operations : list ref) (options : option Js.object)
         (st : store) (x : ref) (v : value),
    get (or_empty options) "os" = None ->
    when (st x) = Some [("os", v)] ->
    (In x (filtered E operations options st)
     <-> In x operations /\ v = VStr (getOperatingSystem (platform E))).
Proof.
  intros E operations options st x v Hos Hwhen.
  unfold filtered, filterWhenMatches. rewrite filter_In. cbn [or_empty].
  rewrite Hwhen, isObjectSubset_spec. unfold is_subset. cbn [or_empty].
  assert (Hget : get (effective_options E options) "os"
                 = Some (VStr (getOperatingSystem (platform E)))).
  { unfold effective_options. rewrite Hos, (set_absent _ _ _ Hos).
    rewrite (get_app_absent _ _ _ Hos). reflexivity. }
  split; intros [Hin H]; (split; [exact Hin|]).
  - specialize (H "os" v (or_introl eq_refl)). congruence.
  - intros k v' [Heq|[]]. injection Heq as <- <-. now rewrite Hget, H.
Qed.

Lemma absent_os_is_read_from_the_platform_witness :
  In 0 (filtered example_env [0; 1] None
                 {| record_of := fun _ =>
                      {| command := "copy";
                         when := Some [("os", VStr "osx")];
                         from := None; to := None; file := None;
                         find := None; replace := None; script := None;
                         arguments := None; image := None |};
                    descriptor_of := fun _ => boot_partition |})
  <-> In 0 [0; 1] /\ VStr "osx" = VStr (getOperatingSystem "darwin").
Proof.
  apply (absent_os_is_read_from_the_platform
           example_env [0; 1] None
           {| record_of := fun _ =>
                {| command := "copy";
                   when := Some [("os", VStr "osx")];
                   from := None; to := None; file := None;
                   find := None; replace := None; script := None;
                   arguments := None; image := None |};
              descriptor_of := fun _ => boot_partition |}
           0 (VStr "osx")); reflexivity.
Defined.

End Platform.

(** ** The output of a step *)

Section Output.
Import Js Utils Commands Action Operations Spec Behaviour.

Lemma emitted_republish_quiet (ls : listeners) (quiet rest : list signal) :
  forallb unheard quiet = true ->
  emitted (republish ls (quiet ++ rest))
  = flat_map event_of quiet ++ emitted (republish ls rest).
Proof.
  induction quiet as [|s quiet IH]; [reflexivity|].
  cbn [forallb]. intros H. apply andb_prop in H as [Hs Hq].
  specialize (IH Hq).
  destruct s; try discriminate Hs; cbn [app republish flat_map event_of];
    rewrite ?emitted_app, ?emitted_emit, IH; reflexivity.
Qed.

Lemma late_republish_quiet (ls : listeners) (quiet rest : list signal) :
  forallb unheard quiet = true ->
  late_output (republish ls (quiet ++ rest)) = late_output (republish ls rest).
Proof.
  induction quiet as [|s quiet IH]; [reflexivity|].
  cbn [forallb]. intros H. apply andb_prop in H as [Hs Hq].
  specialize (IH Hq).
  destruct s; try discriminate Hs; cbn [app republish];
    rewrite ?late_app, ?late_emit; exact IH.
Qed.

(** X21: while the handle of a step has not settled, what it writes to
    its standard output and error and the progress it reports are
    republished as [stdout], [stderr] and [burn] events carrying the same
    data, in the order the handle emits them, after the step's [state]
    event; the first signal that settles the handle decides how the step
    completes, and what the handle emits from then on is re-emitted
    later, in the same way. *)
Theorem step_republishes_output_in_order :
  forall (E : env) (img : string) (options : Js.object) (ls : listeners)
         (length index : nat) (action : member) (r : ref) (st : store)
         (quiet : list signal) (s : signal) (rest : list signal),
    snd (invoke E index img options action (st r) (descriptor_of st))
    = Fulfilled (quiet ++ s :: rest) ->
    forallb unheard quiet = true ->
    unheard s = false ->
    emitted (fst (fst (step E img options ls length index (action, r) st)))
    = EvState r (getOperationProgress index length)
      :: flat_map event_of quiet
    /\ snd (step E img options ls length index (action, r) st)
       = waitStreamToClose [s]
    /\ late_output (fst (fst (step E img options ls length index (action, r) st)))
       = flat_map event_of rest.
Proof.
  intros E img options ls length index action r st quiet s rest Hout Hq Hs.
  rewrite step_log, step_completion, Hout. split; [|split].
  - rewrite emitted_app, emitted_emit. cbn [app]. f_equal.
    change (emitted (Invoke r :: ?l)) with (emitted l).
    rewrite emitted_app, emitted_IO, (emitted_republish_quiet _ _ _ Hq).
    cbn [app]. destruct s; try discriminate Hs; cbn [republish];
      rewrite emitted_straggle; apply app_nil_r.
  - rewrite (waitStreamToClose_skips _ _ Hq).
    destruct s; try discriminate Hs; reflexivity.
  - rewrite late_app, late_emit. cbn [app].
    change (late_output (Invoke r :: ?l)) with (late_output l).
    rewrite late_app, late_IO, (late_republish_quiet _ _ _ Hq). cbn [app].
    destruct s; try discriminate Hs; cbn [republish]; apply late_straggle.
Qed.

Lemma step_republishes_output_in_order_witness :
  emitted (fst (fst (step example_env "img" [] [] 1 0 (Own RunScript, 1)
                          example_store)))
  = EvState 1 (getOperationProgress 0 1)
    :: flat_map event_of [SigStdout "ready"]
  /\ snd (step example_env "img" [] [] 1 0 (Own RunScript, 1) example_store)
     = waitStreamToClose [SigClose (Some 0%Z)]
  /\ late_output (fst (fst (step example_env "img" [] [] 1 0 (Own RunScript, 1)
                           example_store)))
     = flat_map event_of [].
Proof.
  apply (step_republishes_output_in_order
           example_env "img" [] [] 1 0 (Own RunScript) 1 example_store
           [SigStdout "ready"] (SigClose (Some 0%Z)) []); reflexivity.
Defined.

End Output.

(** ** Running an operation again *)

Section Again.
Import Js Utils Commands Action Operations Spec Behaviour.

(** Where the image is set there is nothing to inject. *)
Lemma default_image_at_set (img : string) (base : dref) (h : heap)
    (d : dref) :
  Descriptor.image (h base) <> None -> default_image_at img base h d = h d.
Proof.
  intros Hset. unfold default_image_at.
  destruct (Nat.eqb_spec base d) as [<-|_]; [|reflexivity].
  unfold Descriptor.default_image.
  destruct (Descriptor.image (h base)); [reflexivity | contradiction].
Qed.

Lemma default_image_at_twice (img : string) (base : dref) (h : heap)
    (d : dref) :
  default_image_at img base (default_image_at img base h) d
  = default_image_at img base h d.
Proof. apply default_image_at_set, default_image_at_named. Qed.

(** X22: but for [run-script], invoking a handler again on the operation
    and the descriptors as it left them, with the same image, leaves the
    operation record and every descriptor as they are: the image is
    injected once. *)
Theorem handlers_but_run_script_settle_the_operation :
  forall (E E' : env) (index index' : nat) (img : string)
         (options options' : Js.object) (action : member) (o : operation)
         (h : heap),
    action <> Own RunScript ->
    let after := fst (fst (invoke E index img options action o h)) in
    let again :=
      fst (fst (invoke E' index' img options' action
                       (fst after) (snd after))) in
    fst again = fst after /\ forall d, snd again d = snd after d.
Proof.
  intros E E' index index' img options options' action o h Hne after again.
  subst again after. rewrite !invoke_left.
  assert (Hb : forall (F : env) (i : nat) (opts : option Js.object)
                      (p : operation),
             fst (fst (burn F i img p opts))
             = match image p with Some _ => p | None => with_image p img end).
  { intros F i opts p. unfold burn. destruct (get _ _); [|reflexivity].
    destruct (fs_stat _ _ _); reflexivity. }
  destruct action as [[]|callable]; cbn [fst snd];
    try contradiction; try (split; reflexivity).
  - split; [reflexivity|]. intros d. rewrite !copy_descriptors.
    destruct (from o) as [base|]; [|reflexivity].
    destruct (to o) as [base1|].
    + rewrite default_image_at_set; [apply default_image_at_set|].
      * apply default_image_at_keeps, default_image_at_named.
      * rewrite default_image_at_set;
          [|apply default_image_at_keeps, default_image_at_named].
        apply default_image_at_named.
    + apply default_image_at_twice.
  - split; [reflexivity|]. intros d. rewrite !replace_descriptors.
    destruct (file o) as [base|]; [|reflexivity].
    apply default_image_at_twice.
  - split; [|reflexivity]. rewrite !Hb.
    destruct (image o) eqn:Hi; cbn [image with_image].
    + now rewrite Hi.
    + reflexivity.
Qed.

Lemma handlers_but_run_script_settle_the_operation_witness :
  fst (fst (fst (invoke example_env 1 "img" [] (Own Copy)
                        (fst (fst (fst (invoke example_env 0 "img" []
                                               (Own Copy) (example_store 0)
                                               (descriptor_of example_store)))))
                        (snd (fst (fst (invoke example_env 0 "img" []
                                               (Own Copy) (example_store 0)
                                               (descriptor_of example_store))))))))
  = fst (fst (fst (invoke example_env 0 "img" [] (Own Copy)
                          (example_store 0) (descriptor_of example_store))))
  /\ forall d,
       snd (fst (fst (invoke example_env 1 "img" [] (Own Copy)
                        (fst (fst (fst (invoke example_env 0 "img" []
                                               (Own Copy) (example_store 0)
                                               (descriptor_of example_store)))))
                        (snd (fst (fst (invoke example_env 0 "img" []
                                               (Own Copy) (example_store 0)
                                               (descriptor_of example_store)))))))) d
       = snd (fst (fst (invoke example_env 0 "img" [] (Own Copy)
                               (example_store 0)
                               (descriptor_of example_store)))) d.
Proof.
  apply (handlers_but_run_script_settle_the_operation
           example_env example_env 0 1 "img" [] [] (Own Copy)
           (example_store 0) (descriptor_of example_store)).
  discriminate.
Defined.

(** X23: [run-script] joins the script path under the image each time it
    is invoked: run again on the operation as it left it, it makes
    executable, and records as the script, the joined path joined once
    more. *)
Theorem run_script_joins_the_path_each_time :
  forall (E : env) (index index' : nat) (img : string) (o : operation)
         (s : string),
    script o = Some s ->
    let o' := fst (fst (run_script E index img o)) in
    let again := run_script E index' img o' in
    script o' = Some (path_join E img s)
    /\ script (fst (fst again))
       = Some (path_join E img (path_join E img s))
    /\ exists rest,
         snd (fst again)
         = Chmod (path_join E img (path_join E img s)) 755 :: rest.
Proof.
  intros E index index' img o s Hs o' again.
  assert (Hscript : forall (i : nat) (p : operation) (t : string),
             script p = Some t ->
             script (fst (fst (run_script E i img p)))
             = Some (path_join E img t)
             /\ exists rest,
                  snd (fst (run_script E i img p))
                  = Chmod (path_join E img t) 755 :: rest).
  { intros i p t Ht. unfold run_script. rewrite Ht.
    cbn [arguments with_script].
    destruct (arguments p); destruct (fs_chmod E i (path_join E img t) 755);
      cbn [fst snd script with_script with_arguments]; eauto. }
  destruct (Hscript index o s Hs) as [H1 _]. fold o' in H1.
  split; [exact H1|]. exact (Hscript index' o' _ H1).
Qed.

Lemma run_script_joins_the_path_each_time_witness :
  script (fst (fst (run_script example_env 0 "img" (example_store 1))))
  = Some "img/setup.sh"
  /\ script (fst (fst (run_script example_env 1 "img"
                         (fst (fst (run_script example_env 0 "img"
                                               (example_store 1)))))))
     = Some "img/img/setup.sh"
  /\ exists rest,
       snd (fst (run_script example_env 1 "img"
                   (fst (fst (run_script example_env 0 "img"
                                         (example_store 1))))))
       = Chmod "img/img/setup.sh" 755 :: rest.
Proof.
  apply (run_script_joins_the_path_each_time
           example_env 0 1 "img" (example_store 1) "setup.sh").
  reflexivity.
Defined.

End Again.

(** ** The range of the percentages *)

Section Range.
Import Action Spec.

(** X24: at every position of a list of [N] operations ([N < 2^32]) the
    percentage is a finite decimal from 0 to 100, and above 0 when the
    list has fewer than 2000 operations. *)
Theorem progress_is_between_0_and_100 :
  forall (index length : nat),
    (index < length)%nat ->
    (Z.of_nat length < 2 ^ 32)%Z ->
    exists n,
      getOperationProgress index length = Number.Tenths n
      /\ (0 <= n <= 1000)%Z
      /\ ((length < 2000)%nat -> (0 < n)%Z).
Proof.
  intros index length Hi HN.
  destruct (progress_value index length Hi HN) as (n & x & Hn & _).
  exists n. split; [exact Hn|].
  pose proof (progress_nearest_tenth index length n Hi HN Hn) as Hnear.
  pose proof (progress_monotone index (length - 1) length n 1000
                ltac:(lia) HN Hn (progress_last length ltac:(lia) HN))
    as Hup.
  split; [split; [|exact Hup]|]; [|intros Hsmall]; nia.
Qed.

Lemma progress_is_between_0_and_100_witness :
  exists n,
    getOperationProgress 1 3 = Number.Tenths n
    /\ (0 <= n <= 1000)%Z
    /\ ((3 < 2000)%nat -> (0 < n)%Z).
Proof.
  apply (progress_is_between_0_and_100 1 3); [repeat constructor|reflexivity].
Defined.

(** X25: in a list of fewer than a thousand operations the percentage
    grows from every step to every later one. *)
Theorem progress_grows_at_every_step_below_1000 :
  forall (index later length : nat),
    (index < later < length)%nat ->
    (length < 1000)%nat ->
    exists n n',
      getOperationProgress index length = Number.Tenths n
      /\ getOperationProgress later length = Number.Tenths n'
      /\ (n < n')%Z.
Proof.
  intros index later length Hlt Hsmall.
  assert (HN : (Z.of_nat length < 2 ^ 32)%Z).
  { change (2 ^ 32)%Z with 4294967296%Z. lia. }
  destruct (progress_value index length ltac:(lia) HN) as (n & x & Hn & _).
  destruct (progress_value later length ltac:(lia) HN)
    as (n' & x' & Hn' & _).
  exists n, n'. split; [exact Hn|]. split; [exact Hn'|].
  exact (progress_strict_below_1000 index later length n n' Hlt Hsmall
           Hn Hn').
Qed.

Lemma progress_grows_at_every_step_below_1000_witness :
  exists n n',
    getOperationProgress 0 3 = Number.Tenths n
    /\ getOperationProgress 1 3 = Number.Tenths n'
    /\ (n < n')%Z.
Proof.
  apply (progress_grows_at_every_step_below_1000 0 1 3);
    repeat constructor.
Defined.

(** X26: for an empty list of operations the percentage is no finite
    number, at whatever index it is asked. *)
Theorem progress_of_an_empty_list_is_not_finite :
  forall (index : nat),
    (Z.of_nat index + 1 < 2 ^ 53)%Z ->
    getOperationProgress index 0 = Number.NotFinite.
Proof.
  intros index Hi. unfold getOperationProgress, Number.of_Z, Number.div,
    Number.mul, Number.prec, Number.emax.
  destruct (of_Z_exact (Z.of_nat index + 1)) as (m & e & -> & _);
    [lia|].
  reflexivity.
Qed.

Lemma progress_of_an_empty_list_is_not_finite_witness :
  getOperationProgress 4 0 = Number.NotFinite.
Proof.
  apply (progress_of_an_empty_list_is_not_finite 4). reflexivity.
Defined.

End Range.

(** ** What a run leaves of the operations *)

Section Left.
Import Js Utils Commands Action Operations Spec Behaviour.







End Left.
